(** * pyfind: expression engine and traversal driver

    A shallow embedding of [src/project/find.py]: the expression nodes and
    their evaluation, the recursive-descent parser, the traversal driver and
    [main], followed by the properties of the specification that concern
    them.

    Conventions of the embedding.
    - Python [int] is [Z]; [str] and [bytes] are [string] (a path is the same
      byte string before and after [.encode()]): a [str] is held by its
      UTF-8 encoding, and [chars] gives its characters where the code looks
      at them one by one; [float] timestamps are rationals [Q], so rounding
      of float arithmetic is not represented.
    - A Python call either returns or raises: [result A].
    - Builtins, library calls and system calls the program relies on
      ([int], [fnmatch], [re], [pwd], [grp], [os.*], [subprocess]) are the
      fields of a [Host] record; every definition takes the host as its first
      argument.  The host is a snapshot: a system call answers the same way
      each time it is asked the same question during one run.
    - Everything the program does to the outside world is appended to a
      chronological list of [Effect]s.
    - Two places of the source are mis-indented (the initialisation of
      [prune_flag] after [EvalContext.__init__], and the body of
      [PruneNode.eval]); their statements are taken in the order they are
      written, as the statements of the enclosing method. *)

From Stdlib Require Import ZArith QArith List String Ascii Bool Lia.
Import ListNotations.
Local Open Scope Z_scope.
Local Open Scope string_scope.

(** ** Python values and control *)

Inductive exn : Type :=
| ValueError (msg : string)
| ReError (pattern : string)          (* re.error: not a ValueError *)
| NameError (name : string)
| TypeError (msg : string)
| OSError (path : string)
| KeyboardInterrupt
| SystemExitMsg (msg : string)        (* raise SystemExit("...") *)
| SystemExitCode (code : Z).          (* sys.exit(code) *)

Inductive result (A : Type) : Type :=
| Ret (a : A)
| Raise (e : exn).
Arguments Ret {A} a.
Arguments Raise {A} e.

Definition str_in (s : string) (l : list string) : bool :=
  existsb (String.eqb s) l.

Definition startswith (s p : string) : bool := String.prefix p s.

(** [s[1:]] *)
Definition tail1 (s : string) : string :=
  match s with
  | EmptyString => EmptyString
  | String _ r => r
  end.

(** ** stat results and file information *)

Record stat_result : Type := mk_stat {
  st_mode : Z;
  st_ino : Z;
  st_dev : Z;
  st_nlink : Z;
  st_uid : Z;
  st_gid : Z;
  st_size : Z;
  st_atime : Q;
  st_mtime : Q;
  st_ctime : Q
}.

(** The [stat] module: file type bits. *)
Definition S_IFMT (mode : Z) : Z := Z.land mode 61440.     (* 0o170000 *)
Definition S_ISDIR (mode : Z) : bool := Z.eqb (S_IFMT mode) 16384.   (* 0o040000 *)
Definition S_ISCHR (mode : Z) : bool := Z.eqb (S_IFMT mode) 8192.    (* 0o020000 *)
Definition S_ISBLK (mode : Z) : bool := Z.eqb (S_IFMT mode) 24576.   (* 0o060000 *)
Definition S_ISREG (mode : Z) : bool := Z.eqb (S_IFMT mode) 32768.   (* 0o100000 *)
Definition S_ISFIFO (mode : Z) : bool := Z.eqb (S_IFMT mode) 4096.   (* 0o010000 *)
Definition S_ISLNK (mode : Z) : bool := Z.eqb (S_IFMT mode) 40960.   (* 0o120000 *)
Definition S_ISSOCK (mode : Z) : bool := Z.eqb (S_IFMT mode) 49152.  (* 0o140000 *)

Record FileInfo : Type := mk_FileInfo {
  path : string;
  name : string;
  depth : Z;
  lstat : stat_result;
  stat : stat_result;
  is_dir : bool;
  is_symlink : bool
}.

Definition mode (fi : FileInfo) : Z := st_mode (lstat fi).

(** ** Options *)

Record Debug : Type := mk_Debug {
  enabled : bool;
  cats : list string
}.

Definition debug_on (d : Debug) (cat : string) : bool :=
  enabled d && (str_in "all" (cats d) || str_in cat (cats d)).

Record Options : Type := mk_Options {
  follow : string;              (* "P", "L" or "H" *)
  depth_first : bool;
  maxdepth : option Z;
  mindepth : Z;
  mount : bool;
  daystart : bool;
  files0_from : option string;
  debug : Debug
}.

Definition default_Options : Options :=
  mk_Options "P" false None 0 false false None (mk_Debug false []).

(** ** The host: builtins, libraries and the operating system *)

Inductive stat_answer : Type :=
| StatOk (st : stat_result)
| StatNotFound                        (* FileNotFoundError *)
| StatError.                          (* any other OSError *)

Inductive scandir_answer : Type :=
| ScanOk (names : list string)
| ScanPermissionError
| ScanOSError.                        (* any other OSError *)

Inductive run_answer : Type :=
| Exited (returncode : Z)
| RunNotFound                         (* FileNotFoundError *)
| RunFailed (msg : string)            (* any other Exception *)
| RunInterrupted.                     (* KeyboardInterrupt while waiting *)

Record Host : Type := mk_Host {
  py_int : string -> option Z;                    (* int(text) *)
  py_int8 : string -> option Z;                   (* int(text, 8) *)
  py_repr : string -> string;
  py_str_of_int : Z -> string;
  str_lower : string -> string;
  str_strip : string -> string;
  fnmatchcase : string -> string -> bool;         (* subject, pattern *)
  re_compile_ok : string -> bool;                 (* false: re.error *)
  re_search : string -> bool -> string -> bool;   (* pattern, IGNORECASE, subject *)
  now_time : Q;
  day_floor : Q -> Q;
  os_stat : string -> stat_answer;                (* follow_symlinks=True *)
  getpwnam : string -> option Z;
  getgrnam : string -> option Z;
  getpwuid : Z -> option string;
  getgrgid : Z -> option string;
  os_access : string -> string -> bool;           (* path, "R" | "W" | "X" *)
  os_scandir : string -> scandir_answer;
  os_readlink : string -> option string;
  os_open : string -> bool;                       (* open(path, "a"/"ab") succeeds *)
  os_rmdir : string -> option string;             (* Some e: OSError e *)
  os_remove : string -> option string;
  os_dirname : string -> string;
  format_ls_line : FileInfo -> string;
  shlex_join : list string -> string;
  stdin_readline : list string -> string;         (* the line typed after the prompt for a command *)
  subprocess_run : list string -> option string -> run_answer;
  read_bytes : string -> option string;           (* open(path,'rb').read() *)
  py_traceback : exn -> string;                   (* what the interpreter prints for an uncaught exception *)
  unicode_decimal : string -> option nat;         (* unicodedata.decimal of a character outside ASCII *)
  int_max_str_digits : nat                        (* sys.get_int_max_str_digits(), 0 without a limit *)
}.

(** ** Expression nodes

    One constructor per node class, holding the attributes its
    [__init__] stores. *)

Inductive Node : Type :=
| BoolNode (value : bool)
| NotNode (child : Node)
| AndNode (left right : Node)
| OrNode (left right : Node)
| CommaNode (left right : Node)
| NameNode (pattern : string) (case_insensitive : bool)
| PathNode (pattern : string) (case_insensitive : bool)
| RegexNode (pattern : string) (ignorecase : bool)
| TypeNode (types : string)
| LinksNode (sign : string) (n : Z)
| SizeNode (sign : string) (n mul : Z)
| TimeCompareNode (which : string) (sign : string) (n : Z) (unit_ : string)
                  (daystart_ : bool)
| NewerNode (which : string) (ref_time : option Q)
| PermNode (pmode : string) (mask : Z)
| UIDNode (uid : Z)
| GIDNode (gid : Z)
| UserNode (uid : option Z)
| GroupNode (gid : option Z)
| NoUserNode
| NoGroupNode
| ReadableNode
| WritableNode
| ExecutableNode
| EmptyNode
| InumNode (ino : Z)
| LNameNode (pattern : string) (ci : bool)
| PrintNode (null : bool)
| FPrintNode (fpath : string) (null : bool)
| PrintfNode (fmt : string) (out_path : option string)
| PruneNode
| QuitNode
| DeleteNode
| LSNode (out_path : option string)
| ExecNode (argv : list string) (plus in_dir prompt : bool).

(** ** Constructors that validate their argument *)

Definition int_ (h : Host) (text : string) : result Z :=
  match py_int h text with
  | Some z => Ret z
  | None =>
      Raise (ValueError ("invalid literal for int() with base 10: " ++ py_repr h text))
  end.

Definition parse_n_with_sign (h : Host) (text : string) : result (string * Z) :=
  if startswith text "+" then
    match int_ h (tail1 text) with
    | Ret v => Ret ("+", v)
    | Raise e => Raise e
    end
  else if startswith text "-" && negb (text =? "-") then
    match int_ h (tail1 text) with
    | Ret v => Ret ("-", v)
    | Raise e => Raise e
    end
  else
    match int_ h text with
    | Ret v => Ret ("=", v)
    | Raise e => Raise e
    end.

Definition is_digit (c : ascii) : bool :=
  ((48 <=? nat_of_ascii c) && (nat_of_ascii c <=? 57))%nat.

(** In UTF-8 a byte from 0x80 to 0xBF continues the character begun by a
    byte from 0xC0 on. *)
Definition is_continuation (c : ascii) : bool :=
  ((128 <=? nat_of_ascii c) && (nat_of_ascii c <=? 191))%nat.

Definition is_ascii (c : ascii) : bool := (nat_of_ascii c <? 128)%nat.

(** Whether a string goes on with the character begun before it. *)
Definition continues (r : string) : bool :=
  match r with
  | String c _ => is_continuation c
  | EmptyString => false
  end.

(** The characters of a [str], each with its bytes. *)
Fixpoint chars (s : string) : list string :=
  match s with
  | EmptyString => []
  | String c r =>
      match chars r with
      | ch :: rest =>
          if negb (is_ascii c) && continues r then String c ch :: rest
          else String c EmptyString :: ch :: rest
      | [] => [String c EmptyString]
      end
  end.

(** The value of a character as a decimal digit, which is what [\d] of
    [re] tests on a [str] pattern and what [int] reads: the ASCII digits,
    and beyond ASCII whatever the Unicode database of the interpreter
    gives a decimal value to. *)
Definition decimal_value (h : Host) (ch : string) : option nat :=
  match ch with
  | String c EmptyString =>
      if is_ascii c then
        if is_digit c then Some (nat_of_ascii c - 48)%nat else None
      else unicode_decimal h ch
  | _ => unicode_decimal h ch
  end.

(** The longest prefix of decimal digits, and what follows it. *)
Fixpoint span_decimal (h : Host) (cs : list string) : list string * list string :=
  match cs with
  | [] => ([], [])
  | ch :: r =>
      match decimal_value h ch with
      | Some _ =>
          let (d, rest) := span_decimal h r in (ch :: d, rest)
      | None => ([], cs)
      end
  end.

Fixpoint int_of_decimal (h : Host) (acc : Z) (cs : list string) : Z :=
  match cs with
  | [] => acc
  | ch :: r =>
      int_of_decimal h
        (10 * acc + match decimal_value h ch with
                    | Some v => Z.of_nat v
                    | None => 0
                    end) r
  end.

(** [int] of a string matched by [\d+].  An interpreter that limits the
    length of the numerals it converts raises [ValueError] beyond its
    limit; numerals of up to 640 digits are never refused. *)
Definition int_decimal (h : Host) (cs : list string) : result Z :=
  let digits := List.length cs in
  if ((640 <? digits) && (0 <? int_max_str_digits h)
      && (int_max_str_digits h <? digits))%nat
  then Raise (ValueError
                ("Exceeds the limit ("
                   ++ py_str_of_int h (Z.of_nat (int_max_str_digits h))
                   ++ " digits) for integer string conversion: value has "
                   ++ py_str_of_int h (Z.of_nat digits)
                   ++ " digits; use sys.set_int_max_str_digits() to increase the limit"))
  else Ret (int_of_decimal h 0 cs).

(** [re.fullmatch(r"([+-]?)(\d+)([bcwkMG]?)", spec)]: the three groups, the
    second as the list of its characters. *)
Definition size_spec_groups (h : Host) (spec : string)
    : option (string * list string * string) :=
  let cs := chars spec in
  let '(sg, rest) :=
    match cs with
    | ch :: r =>
        if (ch =? "+") || (ch =? "-") then (ch, r) else (EmptyString, cs)
    | [] => (EmptyString, [])
    end in
  let '(digits, suf) := span_decimal h rest in
  match digits, suf with
  | [], _ => None
  | _ :: _, [] => Some (sg, digits, EmptyString)
  | _ :: _, [u] =>
      if str_in u ["b"; "c"; "w"; "k"; "M"; "G"] then Some (sg, digits, u)
      else None
  | _ :: _, _ :: _ :: _ => None
  end.

Definition size_bytes_from_spec (h : Host) (spec : string)
    : result (string * Z * Z) :=
  match size_spec_groups h spec with
  | None => Raise (ValueError ("invalid -size " ++ spec))
  | Some (sg, digits, suf) =>
      match int_decimal h digits with
      | Raise e => Raise e
      | Ret n =>
          let mul :=
            if suf =? "" then 512
            else if suf =? "b" then 512
            else if suf =? "c" then 1
            else if suf =? "w" then 2
            else if suf =? "k" then 1024
            else if suf =? "M" then 1024 * 1024
            else if suf =? "G" then 1024 * 1024 * 1024
            else 1 in
          Ret (if sg =? "" then "=" else sg, n, mul)
      end
  end.

Definition new_SizeNode (h : Host) (spec : string) : result Node :=
  match size_bytes_from_spec h spec with
  | Ret (sg, n, mul) => Ret (SizeNode sg n mul)
  | Raise e => Raise e
  end.

Definition new_LinksNode (h : Host) (spec : string) : result Node :=
  match parse_n_with_sign h spec with
  | Ret (sg, n) => Ret (LinksNode sg n)
  | Raise e => Raise e
  end.

Definition new_TimeCompareNode (h : Host) (which spec unit_ : string)
    (daystart_ : bool) : result Node :=
  match parse_n_with_sign h spec with
  | Ret (sg, n) => Ret (TimeCompareNode which sg n unit_ daystart_)
  | Raise e => Raise e
  end.

Definition new_RegexNode (h : Host) (pattern : string) (ignorecase : bool)
    : result Node :=
  if re_compile_ok h pattern then Ret (RegexNode pattern ignorecase)
  else Raise (ReError pattern).

Definition new_NewerNode (h : Host) (which ref_path : string) : result Node :=
  match os_stat h ref_path with
  | StatNotFound => Ret (NewerNode which None)
  | StatError => Raise (OSError ref_path)
  | StatOk st =>
      Ret (NewerNode which
             (Some (if which =? "a" then st_atime st
                    else if which =? "m" then st_mtime st
                    else st_ctime st)))
  end.

Definition new_PermNode (h : Host) (spec : string) : result Node :=
  let '(pmode, s) :=
    if startswith spec "-" then ("all", tail1 spec)
    else if startswith spec "/" then ("any", tail1 spec)
    else ("exact", spec) in
  match py_int8 h s with
  | Some mask => Ret (PermNode pmode mask)
  | None => Raise (ValueError ("invalid -perm " ++ spec))
  end.

Definition new_UIDNode (h : Host) (uid : string) : result Node :=
  match int_ h uid with
  | Ret z => Ret (UIDNode z)
  | Raise e => Raise e
  end.

Definition new_GIDNode (h : Host) (gid : string) : result Node :=
  match int_ h gid with
  | Ret z => Ret (GIDNode z)
  | Raise e => Raise e
  end.

Definition new_InumNode (h : Host) (n : string) : result Node :=
  match int_ h n with
  | Ret z => Ret (InumNode z)
  | Raise e => Raise e
  end.

(** ** Parser *)

(** [Tokens]: the items not yet consumed, [items[i:]]. *)
Definition Tokens : Type := list string.

Definition peek (ts : Tokens) : option string := hd_error ts.

(** The argument loop of [-exec]/[-execdir]/[-ok]/[-okdir]: the words up to
    the terminator, whether it was ["+"], and the tokens after it. *)
Fixpoint exec_args (tok : string) (ts : Tokens)
    : result (list string * bool * Tokens) :=
  match ts with
  | [] => Raise (ValueError (tok ++ ": missing terminating ';' or '+'"))
  | a :: ts' =>
      if a =? ";" then Ret ([], false, ts')
      else if a =? "+" then Ret ([], true, ts')
      else
        match exec_args tok ts' with
        | Ret (args, plus, rest) => Ret (a :: args, plus, rest)
        | Raise e => Raise e
        end
  end.

(** [tokens.next()] for a required argument: [None] raises. *)
Definition next_or (msg : string) (ts : Tokens) : result (string * Tokens) :=
  match ts with
  | [] => Raise (ValueError msg)
  | a :: ts' => Ret (a, ts')
  end.

(** The same under the test [if not spec]: the empty string raises too. *)
Definition next_nonempty_or (msg : string) (ts : Tokens)
    : result (string * Tokens) :=
  match ts with
  | [] => Raise (ValueError msg)
  | a :: ts' => if a =? "" then Raise (ValueError msg) else Ret (a, ts')
  end.

Definition with_arg (r : result (string * Tokens)) (mk : string -> result Node)
    : result (Node * Tokens) :=
  match r with
  | Raise e => Raise e
  | Ret (a, ts') =>
      match mk a with
      | Ret nd => Ret (nd, ts')
      | Raise e => Raise e
      end
  end.

(** The part of [parse_primary] under [# tests/actions]: [tok] has been
    taken by [tokens.next()], [ts] is what follows it. *)
Definition parse_test_or_action (h : Host) (options : Options) (tok : string)
    (ts : Tokens) : result (Node * Tokens) :=
  if str_in tok ["-true"] then Ret (BoolNode true, ts)
  else if str_in tok ["-false"] then Ret (BoolNode false, ts)
  else if str_in tok ["-name"; "-iname"] then
    with_arg (next_or "-name requires a pattern" ts)
      (fun pat => Ret (NameNode pat (tok =? "-iname")))
  else if str_in tok ["-path"; "-wholename"; "-iwholename"] then
    with_arg (next_or (tok ++ " requires a pattern") ts)
      (fun pat => Ret (PathNode pat (tok =? "-iwholename")))
  else if str_in tok ["-regex"; "-iregex"] then
    with_arg (next_or "-regex requires a pattern" ts)
      (fun pat => new_RegexNode h pat (tok =? "-iregex"))
  else if tok =? "-type" then
    with_arg (next_nonempty_or "-type requires a type spec" ts)
      (fun typespec => Ret (TypeNode typespec))
  else if tok =? "-size" then
    with_arg (next_nonempty_or "-size requires an argument" ts) (new_SizeNode h)
  else if str_in tok ["-mtime"; "-mmin"; "-atime"; "-amin"; "-ctime"; "-cmin"] then
    with_arg (next_nonempty_or (tok ++ " requires N") ts)
      (fun spec =>
         let which := substring 1 1 tok in
         let unit_ := if str_in tok ["-mmin"; "-amin"; "-cmin"] then "min" else "day" in
         new_TimeCompareNode h which spec unit_ (daystart options))
  else if tok =? "-perm" then
    with_arg (next_nonempty_or "-perm requires MODE" ts) (new_PermNode h)
  else if tok =? "-uid" then
    with_arg (next_or "-uid requires N" ts) (new_UIDNode h)
  else if tok =? "-gid" then
    with_arg (next_or "-gid requires N" ts) (new_GIDNode h)
  else if tok =? "-user" then
    with_arg (next_or "-user requires NAME" ts)
      (fun nm => Ret (UserNode (getpwnam h nm)))
  else if tok =? "-group" then
    with_arg (next_or "-group requires NAME" ts)
      (fun nm => Ret (GroupNode (getgrnam h nm)))
  else if tok =? "-links" then
    with_arg (next_or "-links requires N" ts) (new_LinksNode h)
  else if tok =? "-empty" then Ret (EmptyNode, ts)
  else if tok =? "-readable" then Ret (ReadableNode, ts)
  else if tok =? "-writable" then Ret (WritableNode, ts)
  else if tok =? "-executable" then Ret (ExecutableNode, ts)
  else if str_in tok ["-newer"; "-anewer"; "-cnewer"] then
    with_arg (next_or (tok ++ " requires FILE") ts)
      (fun p =>
         let which :=
           if tok =? "-newer" then "m" else if tok =? "-anewer" then "a" else "c" in
         new_NewerNode h which p)
  else if tok =? "-inum" then
    with_arg (next_or "-inum requires N" ts) (new_InumNode h)
  else if tok =? "-lname" then
    with_arg (next_or "-lname requires PATTERN" ts)
      (fun pat => Ret (LNameNode pat false))
  else if tok =? "-ilname" then
    with_arg (next_or "-ilname requires PATTERN" ts)
      (fun pat => Ret (LNameNode pat true))
  else if tok =? "-nouser" then Ret (NoUserNode, ts)
  else if tok =? "-nogroup" then Ret (NoGroupNode, ts)
  else if str_in tok ["-print"; "-print0"] then Ret (PrintNode (tok =? "-print0"), ts)
  else if str_in tok ["-fprint"; "-fprint0"] then
    with_arg (next_or (tok ++ " requires FILE") ts)
      (fun p => Ret (FPrintNode p (tok =? "-fprint0")))
  else if str_in tok ["-printf"; "-fprintf"] then
    if tok =? "-fprintf" then
      match next_or "-fprintf requires FILE FORMAT" ts with
      | Raise e => Raise e
      | Ret (out, ts1) =>
          with_arg (next_or (tok ++ " requires FORMAT") ts1)
            (fun fmt => Ret (PrintfNode fmt (Some out)))
      end
    else
      with_arg (next_or (tok ++ " requires FORMAT") ts)
        (fun fmt => Ret (PrintfNode fmt None))
  else if tok =? "-prune" then Ret (PruneNode, ts)
  else if tok =? "-quit" then Ret (QuitNode, ts)
  else if tok =? "-delete" then Ret (DeleteNode, ts)
  else if str_in tok ["-ls"; "-fls"] then
    if tok =? "-fls" then
      with_arg (next_or "-fls requires FILE" ts) (fun out => Ret (LSNode (Some out)))
    else Ret (LSNode None, ts)
  else if str_in tok ["-exec"; "-execdir"; "-ok"; "-okdir"] then
    match exec_args tok ts with
    | Raise e => Raise e
    | Ret (args, plus, rest) =>
        Ret (ExecNode args plus (str_in tok ["-execdir"; "-okdir"])
               (str_in tok ["-ok"; "-okdir"]), rest)
    end
  else Raise (ValueError ("unknown token " ++ tok)).

(** The four mutually recursive parsing functions.  Every call of
    [parse_primary] that is given a token consumes it, so the nesting of
    calls is bounded by the number of tokens; [fuel] bounds it in the
    embedding, and [None] stands for fuel that ran out (shown below never to
    happen from [parse_expression]). *)
Section ParserLevels.
Variable primary : Tokens -> option (result (Node * Tokens)).

(** The [while True] loop of [parse_and]. *)
Fixpoint parse_and_loop (fuel : nat) (node : Node) (ts : Tokens)
    : option (result (Node * Tokens)) :=
  match fuel with
  | O => None
  | S fuel' =>
      match peek ts with
      | None => Some (Ret (node, ts))
      | Some t =>
          if str_in t [")"; "-o"; "-or"; ","] then Some (Ret (node, ts))
          else
            let ts1 := if str_in t ["-a"; "-and"] then tl ts else ts in
            match primary ts1 with
            | None => None
            | Some (Raise e) => Some (Raise e)
            | Some (Ret (rhs, ts2)) =>
                parse_and_loop fuel' (AndNode node rhs) ts2
            end
      end
  end.

Definition parse_and (fuel : nat) (ts : Tokens) : option (result (Node * Tokens)) :=
  match primary ts with
  | None => None
  | Some (Raise e) => Some (Raise e)
  | Some (Ret (node, ts1)) => parse_and_loop fuel node ts1
  end.

(** The [while tokens.peek() == ','] loop of [parse_comma]. *)
Fixpoint parse_comma_loop (fuel : nat) (node : Node) (ts : Tokens)
    : option (result (Node * Tokens)) :=
  match fuel with
  | O => None
  | S fuel' =>
      match ts with
      | t :: ts1 =>
          if t =? "," then
            match parse_and fuel' ts1 with
            | None => None
            | Some (Raise e) => Some (Raise e)
            | Some (Ret (rhs, ts2)) =>
                parse_comma_loop fuel' (CommaNode node rhs) ts2
            end
          else Some (Ret (node, ts))
      | [] => Some (Ret (node, ts))
      end
  end.

Definition parse_comma (fuel : nat) (ts : Tokens)
    : option (result (Node * Tokens)) :=
  match parse_and fuel ts with
  | None => None
  | Some (Raise e) => Some (Raise e)
  | Some (Ret (node, ts1)) => parse_comma_loop fuel node ts1
  end.

(** The [while True] loop of [parse_or]. *)
Fixpoint parse_or_loop (fuel : nat) (node : Node) (ts : Tokens)
    : option (result (Node * Tokens)) :=
  match fuel with
  | O => None
  | S fuel' =>
      match ts with
      | t :: ts1 =>
          if str_in t ["-o"; "-or"] then
            match parse_comma fuel' ts1 with
            | None => None
            | Some (Raise e) => Some (Raise e)
            | Some (Ret (rhs, ts2)) =>
                parse_or_loop fuel' (OrNode node rhs) ts2
            end
          else Some (Ret (node, ts))
      | [] => Some (Ret (node, ts))
      end
  end.

Definition parse_or (fuel : nat) (ts : Tokens) : option (result (Node * Tokens)) :=
  match parse_comma fuel ts with
  | None => None
  | Some (Raise e) => Some (Raise e)
  | Some (Ret (node, ts1)) => parse_or_loop fuel node ts1
  end.
End ParserLevels.

Fixpoint parse_primary (h : Host) (options : Options) (fuel : nat) (ts : Tokens)
    : option (result (Node * Tokens)) :=
  match fuel with
  | O => None
  | S fuel' =>
      match ts with
      | [] => Some (Ret (BoolNode true, ts))
      | t :: ts1 =>
          if t =? "(" then
            match parse_or (parse_primary h options fuel') fuel' ts1 with
            | None => None
            | Some (Raise e) => Some (Raise e)
            | Some (Ret (node, ts2)) =>
                match ts2 with
                | t2 :: ts3 =>
                    if t2 =? ")" then Some (Ret (node, ts3))
                    else Some (Raise (ValueError "missing )"))
                | [] => Some (Raise (ValueError "missing )"))
                end
            end
          else if str_in t ["!"; "-not"] then
            match parse_primary h options fuel' ts1 with
            | None => None
            | Some (Raise e) => Some (Raise e)
            | Some (Ret (child, ts2)) => Some (Ret (NotNode child, ts2))
            end
          else Some (parse_test_or_action h options t ts1)
      end
  end.

(** [parse_expression(tokens, options)]: the node [parse_or()] returns, and
    the tokens it left unread (the source drops them with the [Tokens]
    object). *)
Definition parse_expression (h : Host) (ts : Tokens) (options : Options)
    : option (result (Node * Tokens)) :=
  let fuel := S (S (List.length ts)) in
  parse_or (parse_primary h options fuel) fuel ts.

(** ** Evaluation context, effects and the evaluation monad *)

Inductive Effect : Type :=
| StdoutWrite (data : string)
| StderrWrite (data : string)
| StdinReadline
| FileOpen (fpath : string) (binary : bool)
| FileWrite (fpath : string) (data : string)
| FileClose (fpath : string)
| Rmdir (target : string)
| Remove (target : string)
| SubprocessRun (cmd : list string) (cwd : option string).

(** [_open_files] maps a path to its handle; what matters of a handle is
    whether it was opened in binary mode.  [_batch_exec] is never read. *)
Record EvalContext : Type := mk_EvalContext {
  quit : bool;
  suppress_actions : bool;
  prune_flag : bool;
  open_files : list (string * bool)
}.

Definition new_EvalContext : EvalContext := mk_EvalContext false false false [].

Definition set_suppress (v : bool) (c : EvalContext) : EvalContext :=
  mk_EvalContext (quit c) v (prune_flag c) (open_files c).
Definition set_prune_flag (v : bool) (c : EvalContext) : EvalContext :=
  mk_EvalContext (quit c) (suppress_actions c) v (open_files c).
Definition set_quit (v : bool) (c : EvalContext) : EvalContext :=
  mk_EvalContext v (suppress_actions c) (prune_flag c) (open_files c).
Definition set_open_files (fs : list (string * bool)) (c : EvalContext) : EvalContext :=
  mk_EvalContext (quit c) (suppress_actions c) (prune_flag c) fs.

(** A computation reads and updates the context, appends effects, and
    returns or raises. *)
Definition M (A : Type) : Type := EvalContext -> result A * EvalContext * list Effect.

Definition ret {A} (a : A) : M A := fun c => (Ret a, c, []).
Definition raise {A} (e : exn) : M A := fun c => (Raise e, c, []).
Definition emit (e : Effect) : M unit := fun c => (Ret tt, c, [e]).
Definition get_ctx : M EvalContext := fun c => (Ret c, c, []).
Definition modify (f : EvalContext -> EvalContext) : M unit :=
  fun c => (Ret tt, f c, []).
Definition bind {A B} (m : M A) (k : A -> M B) : M B :=
  fun c =>
    match m c with
    | (Ret a, c1, es1) =>
        match k a c1 with
        | (r, c2, es2) => (r, c2, (es1 ++ es2)%list)
        end
    | (Raise e, c1, es1) => (Raise e, c1, es1)
    end.

Notation "x <- m ;; k" := (bind m (fun x => k))
  (at level 61, m at next level, right associativity).
Notation "m ;;; k" := (bind m (fun _ => k))
  (at level 61, right associativity).

Definition NUL : string := String (ascii_of_nat 0) EmptyString.
Definition NL : string := String (ascii_of_nat 10) EmptyString.

Definition eprint (msg : string) : M unit := emit (StderrWrite (msg ++ NL)).
Definition print (msg : string) : M unit := emit (StdoutWrite (msg ++ NL)).

Fixpoint lookup_file (p : string) (fs : list (string * bool)) : option bool :=
  match fs with
  | [] => None
  | (q, b) :: fs' => if p =? q then Some b else lookup_file p fs'
  end.

(** [ctx.get_output_file(path, binary)]: the mode of the handle returned. *)
Definition get_output_file (h : Host) (p : string) (binary : bool) : M bool :=
  c <- get_ctx ;;
  match lookup_file p (open_files c) with
  | Some b => ret b
  | None =>
      if os_open h p then
        emit (FileOpen p binary) ;;;
        modify (set_open_files ((open_files c ++ [(p, binary)])%list)) ;;;
        ret binary
      else raise (OSError p)
  end.

(** [f.write(data)] on the handle of [p], opened in mode [handle_binary];
    [data_bytes] tells whether [data] is [bytes]. *)
Definition file_write (p : string) (handle_binary data_bytes : bool) (data : string)
    : M unit :=
  if Bool.eqb handle_binary data_bytes then emit (FileWrite p data)
  else raise (TypeError "write() argument has the wrong type").

(** ** Tests *)

Definition Qltb (a b : Q) : bool := negb (Qle_bool b a).

Definition compare_n (sg : string) (val n : Z) : bool :=
  if sg =? "+" then (val >? n)%Z
  else if sg =? "-" then (val <? n)%Z
  else (val =? n)%Z.

Definition type_letter_matches (t : ascii) (m : Z) : bool :=
  (Ascii.eqb t "f" && S_ISREG m) || (Ascii.eqb t "d" && S_ISDIR m)
  || (Ascii.eqb t "l" && S_ISLNK m) || (Ascii.eqb t "b" && S_ISBLK m)
  || (Ascii.eqb t "c" && S_ISCHR m) || (Ascii.eqb t "p" && S_ISFIFO m)
  || (Ascii.eqb t "s" && S_ISSOCK m).

Definition eval_TypeNode (types : string) (fi : FileInfo) : bool :=
  existsb (fun t => type_letter_matches t (mode fi)) (list_ascii_of_string types).

Definition eval_SizeNode (sg : string) (n mul : Z) (fi : FileInfo) : bool :=
  let size := st_size (lstat fi) in
  let blocks := (size + mul - 1) / mul in
  compare_n sg blocks n.

Definition eval_TimeCompareNode (h : Host) (which sg : string) (n : Z)
    (unit_ : string) (daystart_ : bool) (fi : FileInfo) : bool :=
  let t := if which =? "a" then st_atime (lstat fi)
           else if which =? "m" then st_mtime (lstat fi)
           else st_ctime (lstat fi) in
  let now := now_time h in
  let delta :=
    if unit_ =? "min" then Qdiv (Qminus now t) (inject_Z 60)
    else
      let now := if daystart_ then day_floor h now else now in
      Qdiv (Qminus now t) (inject_Z 86400) in
  if sg =? "+" then Qltb (inject_Z n) delta
  else if sg =? "-" then Qltb delta (inject_Z n)
  else Qle_bool (inject_Z n) delta && Qltb delta (inject_Z (n + 1)).

Definition eval_NewerNode (which : string) (ref_time : option Q) (fi : FileInfo)
    : bool :=
  match ref_time with
  | None => false
  | Some rt =>
      let t := if which =? "m" then st_mtime (lstat fi)
               else if which =? "a" then st_atime (lstat fi)
               else st_ctime (lstat fi) in
      Qltb rt t
  end.

Definition eval_PermNode (pmode : string) (mask : Z) (fi : FileInfo) : bool :=
  let m := Z.land (st_mode (lstat fi)) 4095 in     (* 0o7777 *)
  if pmode =? "exact" then (m =? mask)%Z
  else if pmode =? "all" then (Z.land m mask =? mask)%Z
  else negb (Z.land m mask =? 0)%Z.

Definition eval_EmptyNode (h : Host) (fi : FileInfo) : result bool :=
  if S_ISDIR (mode fi) then
    match os_scandir h (path fi) with
    | ScanOk [] => Ret true
    | ScanOk (_ :: _) => Ret false
    | ScanPermissionError => Ret false
    | ScanOSError => Raise (OSError (path fi))
    end
  else Ret (st_size (lstat fi) =? 0)%Z.

Definition eval_LNameNode (h : Host) (pat : string) (ci : bool) (fi : FileInfo)
    : bool :=
  if negb (S_ISLNK (mode fi)) then false
  else
    match os_readlink h (path fi) with
    | None => false
    | Some target =>
        if ci then fnmatchcase h (str_lower h target) (str_lower h pat)
        else fnmatchcase h target pat
    end.

Definition eval_glob (h : Host) (subject pat : string) (ci : bool) : bool :=
  if ci then fnmatchcase h (str_lower h subject) (str_lower h pat)
  else fnmatchcase h subject pat.

(** ** Actions *)

(** [simple_printf]: the accumulator [out] is never bound, its
    initialisation [out = []] being part of the comment line that precedes
    [i = 0]; every path through the body reads [out] (in an [out.append], or
    in the final [''.join(out)] when the loop is left without appending), so
    every call raises [NameError]. *)
Definition simple_printf (format_str : string) (fi : FileInfo) : result string :=
  Raise (NameError "out").

Definition has_nul (s : string) : bool :=
  existsb (Ascii.eqb (ascii_of_nat 0)) (list_ascii_of_string s).

(** [if self.out_path:] holds for a non-empty string only. *)
Definition truthy (o : option string) : option string :=
  match o with
  | Some p => if p =? "" then None else Some p
  | None => None
  end.

Definition eval_PrintNode (null : bool) (fi : FileInfo) : M bool :=
  c <- get_ctx ;;
  (if negb (suppress_actions c) then
     if null then emit (StdoutWrite (path fi ++ NUL))
     else print (path fi)
   else ret tt) ;;;
  ret true.

Definition eval_FPrintNode (h : Host) (p : string) (null : bool) (fi : FileInfo)
    : M bool :=
  c <- get_ctx ;;
  (if negb (suppress_actions c) then
     f <- get_output_file h p null ;;
     if null then file_write p f true (path fi ++ NUL)
     else file_write p f false (path fi ++ NL)
   else ret tt) ;;;
  ret true.

Definition eval_PrintfNode (h : Host) (fmt : string) (out_path : option string)
    (fi : FileInfo) : M bool :=
  c <- get_ctx ;;
  (if negb (suppress_actions c) then
     match simple_printf fmt fi with
     | Raise e => raise e
     | Ret s =>
         match truthy out_path with
         | Some p =>
             f <- get_output_file h p (has_nul s) ;;
             file_write p f (has_nul s) s
         | None => emit (StdoutWrite s)
         end
     end
   else ret tt) ;;;
  ret true.

Definition eval_PruneNode : M bool :=
  modify (set_prune_flag true) ;;; ret true.

Definition eval_QuitNode : M bool :=
  modify (set_quit true) ;;; ret true.

Definition eval_DeleteNode (h : Host) (fi : FileInfo) : M bool :=
  c <- get_ctx ;;
  if suppress_actions c then ret true
  else
    let attempt :=
      if S_ISDIR (mode fi) then (Rmdir (path fi), os_rmdir h (path fi))
      else (Remove (path fi), os_remove h (path fi)) in
    emit (fst attempt) ;;;
    match snd attempt with
    | None => ret true
    | Some e =>
        eprint ("find: failed to delete " ++ path fi ++ ": " ++ e) ;;; ret false
    end.

Definition eval_LSNode (h : Host) (out_path : option string) (fi : FileInfo)
    : M bool :=
  let line := format_ls_line h fi in
  c <- get_ctx ;;
  (if negb (suppress_actions c) then
     match truthy out_path with
     | Some p =>
         f <- get_output_file h p false ;;
         file_write p f false (line ++ NL)
     | None => print line
     end
   else ret tt) ;;;
  ret true.

(** [ExecNode._build_cmd] *)
Definition build_cmd (argv : list string) (p : string) : list string :=
  let cmd := map (fun a => if a =? "{}" then p else a) argv in
  if existsb (fun a => a =? "{}") argv then cmd else (cmd ++ [p])%list.

(** [ExecNode._run] *)
Definition run (h : Host) (in_dir prompt : bool) (cmd : list string) (fi : FileInfo)
    : M bool :=
  let cwd := if in_dir then truthy (Some (os_dirname h (path fi))) else None in
  let spawn : M bool :=
    emit (SubprocessRun cmd cwd) ;;;
    match subprocess_run h cmd cwd with
    | Exited rc => ret (rc =? 0)%Z
    | RunNotFound =>
        eprint ("find: command not found: " ++ hd "" cmd) ;;; ret false
    | RunFailed e =>
        eprint ("find: exec failed " ++ shlex_join h cmd ++ ": " ++ e) ;;; ret false
    | RunInterrupted => raise KeyboardInterrupt
    end in
  if prompt then
    emit (StdoutWrite ("< " ++ shlex_join h cmd ++ " ... (y/n)? ")) ;;;
    emit StdinReadline ;;;
    let ans := str_lower h (str_strip h (stdin_readline h cmd)) in
    if negb (startswith ans "y") then ret false else spawn
  else spawn.

Definition eval_ExecNode (h : Host) (argv : list string) (plus in_dir prompt : bool)
    (fi : FileInfo) : M bool :=
  c <- get_ctx ;;
  if suppress_actions c then ret true
  else if plus then run h in_dir prompt (build_cmd argv (path fi)) fi
  else run h in_dir prompt (build_cmd argv (path fi)) fi.

Definition lift (r : result bool) : M bool :=
  match r with
  | Ret b => ret b
  | Raise e => raise e
  end.

(** ** [Node.eval] *)
Fixpoint eval (h : Host) (nd : Node) (fi : FileInfo) {struct nd} : M bool :=
  match nd with
  | BoolNode value => ret value
  | NotNode child => b <- eval h child fi ;; ret (negb b)
  | AndNode l r =>
      b <- eval h l fi ;;
      if negb b then ret false else eval h r fi
  | OrNode l r =>
      b <- eval h l fi ;;
      if b then ret true else eval h r fi
  | CommaNode l r => eval h l fi ;;; eval h r fi
  | NameNode pat ci => ret (eval_glob h (name fi) pat ci)
  | PathNode pat ci => ret (eval_glob h (path fi) pat ci)
  | RegexNode pat ic => ret (re_search h pat ic (path fi))
  | TypeNode types => ret (eval_TypeNode types fi)
  | LinksNode sg n => ret (compare_n sg (st_nlink (lstat fi)) n)
  | SizeNode sg n mul => ret (eval_SizeNode sg n mul fi)
  | TimeCompareNode which sg n unit_ ds =>
      ret (eval_TimeCompareNode h which sg n unit_ ds fi)
  | NewerNode which rt => ret (eval_NewerNode which rt fi)
  | PermNode pmode mask => ret (eval_PermNode pmode mask fi)
  | UIDNode uid => ret (st_uid (lstat fi) =? uid)%Z
  | GIDNode gid => ret (st_gid (lstat fi) =? gid)%Z
  | UserNode uid =>
      ret (match uid with Some u => (st_uid (lstat fi) =? u)%Z | None => false end)
  | GroupNode gid =>
      ret (match gid with Some g => (st_gid (lstat fi) =? g)%Z | None => false end)
  | NoUserNode =>
      ret (match getpwuid h (st_uid (lstat fi)) with Some _ => false | None => true end)
  | NoGroupNode =>
      ret (match getgrgid h (st_gid (lstat fi)) with Some _ => false | None => true end)
  | ReadableNode => ret (os_access h (path fi) "R")
  | WritableNode => ret (os_access h (path fi) "W")
  | ExecutableNode => ret (os_access h (path fi) "X")
  | EmptyNode => lift (eval_EmptyNode h fi)
  | InumNode ino => ret (st_ino (lstat fi) =? ino)%Z
  | LNameNode pat ci => ret (eval_LNameNode h pat ci fi)
  | PrintNode null => eval_PrintNode null fi
  | FPrintNode p null => eval_FPrintNode h p null fi
  | PrintfNode fmt out_path => eval_PrintfNode h fmt out_path fi
  | PruneNode => eval_PruneNode
  | QuitNode => eval_QuitNode
  | DeleteNode => eval_DeleteNode h fi
  | LSNode out_path => eval_LSNode h out_path fi
  | ExecNode argv plus in_dir prompt => eval_ExecNode h argv plus in_dir prompt fi
  end.


(** ** Paths *)

Definition is_slash (c : ascii) : bool := Ascii.eqb c "/".

(** [path.rstrip('/')] *)
Fixpoint rstrip_slash (s : string) : string :=
  match s with
  | EmptyString => EmptyString
  | String c r =>
      let r' := rstrip_slash r in
      if (r' =? "") && is_slash c then EmptyString else String c r'
  end.

(** [os.path.basename]: what follows the last slash; [cur] is what has been
    read since the last slash seen. *)
Fixpoint basename_from (cur s : string) : string :=
  match s with
  | EmptyString => cur
  | String c r =>
      if is_slash c then basename_from EmptyString r
      else basename_from (cur ++ String c EmptyString) r
  end.

Definition basename (s : string) : string := basename_from EmptyString s.

Fixpoint ends_with_slash (s : string) : bool :=
  match s with
  | EmptyString => false
  | String c EmptyString => is_slash c
  | String _ r => ends_with_slash r
  end.

(** [os.path.join(a, b)] *)
Definition os_path_join (a b : string) : string :=
  if startswith b "/" then b
  else if (a =? "") || ends_with_slash a then a ++ b
  else a ++ "/" ++ b.

(** ** The file system seen by one traversal

    What [os.lstat], [os.stat] and [os.scandir] answer along the walk: an
    entry is [Absent] when [os.lstat] raises; otherwise it has its own
    metadata [lst], the metadata [os.stat] finds after following links
    ([None] when that raises), and what [os.scandir] yields for it: a
    [PermissionError] when [denied], else its [children] in the order
    listed. *)
Inductive FsTree : Type :=
| Absent
| Entry (lst : stat_result) (target : option stat_result) (denied : bool)
        (children : Forest)
with Forest : Type :=
| NoMore
| Child (entry_name : string) (t : FsTree) (rest : Forest).

(** The second component of [get_stats] for an entry that exists: [os.stat]
    when following, falling back on [lst] when that raises. *)
Definition stat_following (lst : stat_result) (target : option stat_result)
    (follow_symlinks : bool) : stat_result :=
  if follow_symlinks then
    match target with
    | Some st => st
    | None => lst
    end
  else lst.

Definition get_stats (t : FsTree) (follow_symlinks : bool)
    : option stat_result * option stat_result :=
  match t with
  | Absent => (None, None)
  | Entry lst target _ _ =>
      (Some lst, Some (stat_following lst target follow_symlinks))
  end.

(** [is_dir_following(entry, True)] *)
Definition is_dir_following (t : FsTree) : bool :=
  match t with
  | Entry _ (Some st) _ _ => S_ISDIR (st_mode st)
  | _ => false
  end.

(** ** Traversal *)

(** One call of [expr.eval(fi, ctx)] made by [walk]. *)
Record Evaluation : Type := mk_Evaluation {
  ev_path : string;
  ev_depth : Z;
  ev_post_order : bool;
  ev_suppressed : bool;          (* ctx.suppress_actions() during the call *)
  ev_result : result bool;
  ev_pruned : bool;              (* ctx.prune_flag after the call *)
  ev_quit : bool;                (* ctx.quit after the call *)
  ev_effects : list Effect       (* what the call did *)
}.

(** What [walk] did, in order: [Visit] when it has built the [FileInfo] of
    an entry and computed [suppress] for it, [Evaluate] for each call of
    [expr.eval]. *)
Inductive Event : Type :=
| Visit (p : string) (d : Z) (suppress : bool)
| Evaluate (ev : Evaluation).

(** The variables [walk] closes over ([ctx], [total_matches],
    [visited_dirs]), the effects on the outside world so far, and the
    history of the run.  The history is kept for the statements below; no
    definition reads it. *)
Record WalkState : Type := mk_WalkState {
  ctx : EvalContext;
  total_matches : Z;
  visited_dirs : list (Z * Z);
  effects : list Effect;
  history : list Event
}.

Definition with_ctx (c : EvalContext) (ws : WalkState) : WalkState :=
  mk_WalkState c (total_matches ws) (visited_dirs ws) (effects ws) (history ws).
Definition with_visited (v : list (Z * Z)) (ws : WalkState) : WalkState :=
  mk_WalkState (ctx ws) (total_matches ws) v (effects ws) (history ws).
Definition add_effects (es : list Effect) (ws : WalkState) : WalkState :=
  mk_WalkState (ctx ws) (total_matches ws) (visited_dirs ws)
    (effects ws ++ es)%list (history ws).
Definition record (e : Event) (ws : WalkState) : WalkState :=
  mk_WalkState (ctx ws) (total_matches ws) (visited_dirs ws) (effects ws)
    (history ws ++ [e])%list.

Definition key_in (k : Z * Z) (l : list (Z * Z)) : bool :=
  existsb (fun k' => (fst k =? fst k')%Z && (snd k =? snd k')%Z) l.

(** The three statements both evaluation sites of [walk] share:
    [ctx.prune_flag = False; if expr.eval(fi, ctx): total_matches += 1]. *)
Definition evaluate (h : Host) (expr : Node) (fi : FileInfo) (post : bool)
    (ws : WalkState) : option exn * WalkState :=
  let c0 := set_prune_flag false (ctx ws) in
  match eval h expr fi c0 with
  | (r, c1, es) =>
      let ev := mk_Evaluation (path fi) (depth fi) post (suppress_actions c0) r
                  (prune_flag c1) (quit c1) es in
      let count := match r with Ret true => 1 | _ => 0 end in
      (match r with Ret _ => None | Raise e => Some e end,
       mk_WalkState c1 (total_matches ws + count) (visited_dirs ws)
         (effects ws ++ es)%list (history ws ++ [Evaluate ev])%list)
  end.

(** [suppress = (opts.maxdepth is not None and depth > opts.maxdepth)
               or (depth < opts.mindepth)] *)
Definition suppress_for (opts : Options) (depth : Z) : bool :=
  match maxdepth opts with
  | Some m => (depth >? m)%Z
  | None => false
  end || (depth <? mindepth opts)%Z.

(** The [FileInfo] that [walk] builds for an existing entry, from
    [lst, st = get_stats(path, follow_symlinks=(opts.follow == 'L'))]. *)
Definition make_FileInfo (opts : Options) (lst : stat_result)
    (target : option stat_result) (path : string) (depth : Z) : FileInfo :=
  let st := stat_following lst target (follow opts =? "L") in
  mk_FileInfo path
    (let b := basename (rstrip_slash path) in if b =? "" then path else b)
    depth lst st (S_ISDIR (st_mode lst)) (S_ISLNK (st_mode lst)).

(** The entry of [walk] up to [ctx.set_suppress(suppress)]. *)
Definition enter (opts : Options) (path : string) (depth : Z) (ws : WalkState)
    : WalkState :=
  record (Visit path depth (suppress_for opts depth))
    (with_ctx (set_suppress (suppress_for opts depth) (ctx ws)) ws).

Fixpoint walk (h : Host) (expr : Node) (opts : Options) (start_dev : Z)
    (t : FsTree) (path : string) (depth : Z) (ws : WalkState) {struct t}
    : option exn * WalkState :=
  if quit (ctx ws) then (None, ws)
  else
    match t with
    | Absent => (None, ws)
    | Entry lst target denied children =>
        let is_dir := S_ISDIR (st_mode lst) in
        let fi := make_FileInfo opts lst target path depth in
        let ws := enter opts path depth ws in
        (* Pre-order *)
        let '(exc, ws, prune_here) :=
          if negb (depth_first opts) || negb is_dir then
            match evaluate h expr fi false ws with
            | (exc, ws') => (exc, ws', prune_flag (ctx ws') && is_dir)
            end
          else (None, ws, false) in
        match exc with
        | Some e => (Some e, ws)
        | None =>
            (* Readdir and recurse *)
            let do_recurse := is_dir && negb prune_here in
            let do_recurse :=
              match maxdepth opts with
              | Some m => if (depth >=? m)%Z then false else do_recurse
              | None => do_recurse
              end in
            let do_recurse :=
              if mount opts && is_dir && negb (st_dev lst =? start_dev)%Z
              then false else do_recurse in
            let '(do_recurse, ws) :=
              if is_dir && (follow opts =? "L") then
                let key := (st_dev lst, st_ino lst) in
                if key_in key (visited_dirs ws) then (false, ws)
                else (do_recurse, with_visited (key :: visited_dirs ws) ws)
              else (do_recurse, ws) in
            let '(exc, ws) :=
              if do_recurse && negb (quit (ctx ws)) then
                if denied then
                  (None,
                   if debug_on (debug opts) "search"
                   then add_effects
                          [StderrWrite ("[DEBUG:search] Permission denied: "
                                        ++ path ++ NL)] ws
                   else ws)
                else walk_entries h expr opts start_dev children path depth ws
              else (None, ws) in
            match exc with
            | Some e => (Some e, ws)
            | None =>
                (* Post-order *)
                if depth_first opts && is_dir && negb (quit (ctx ws))
                then evaluate h expr fi true ws
                else (None, ws)
            end
        end
    end

(** The loop [for entry in entries] of [walk]. *)
with walk_entries (h : Host) (expr : Node) (opts : Options) (start_dev : Z)
    (f : Forest) (path : string) (depth : Z) (ws : WalkState) {struct f}
    : option exn * WalkState :=
  match f with
  | NoMore => (None, ws)
  | Child entry_name t rest =>
      if quit (ctx ws) then (None, ws)
      else
        let child_path := os_path_join path entry_name in
        let go := walk h expr opts start_dev t child_path (depth + 1) ws in
        let after :=
          if follow opts =? "L" then
            if is_dir_following t then go else go
          else if (follow opts =? "H") && (depth =? 0)%Z then
            if is_dir_following t then go else go
          else go in
        match after with
        | (Some e, ws') => (Some e, ws')
        | (None, ws') => walk_entries h expr opts start_dev rest path depth ws'
        end
  end.

(** [ctx.close()] *)
Definition close (ws : WalkState) : WalkState :=
  mk_WalkState (set_open_files [] (ctx ws)) (total_matches ws) (visited_dirs ws)
    (effects ws ++ map (fun pb => FileClose (fst pb)) (open_files (ctx ws)))%list
    (history ws).

(** The loop [for start in paths] of [traverse]; [fs] gives the tree found
    at each start path. *)
Fixpoint traverse_loop (h : Host) (fs : string -> FsTree) (expr : Node)
    (opts : Options) (paths : list string) (ws : WalkState)
    : option exn * WalkState :=
  match paths with
  | [] => (None, ws)
  | start :: paths' =>
      match get_stats (fs start) ((follow opts =? "L") || (follow opts =? "H")) with
      | (None, _) =>
          traverse_loop h fs expr opts paths'
            (add_effects
               [StderrWrite ("find: " ++ start ++ ": No such file or directory" ++ NL)]
               ws)
      | (Some start_lstat, start_stat) =>
          let start_is_dir := S_ISDIR (st_mode start_lstat) in
          let start_is_symlink := S_ISLNK (st_mode start_lstat) in
          let start_dev := st_dev start_lstat in
          match walk h expr opts start_dev (fs start) start 0 (with_visited [] ws) with
          | (Some e, ws') => (Some e, ws')
          | (None, ws') => traverse_loop h fs expr opts paths' ws'
          end
      end
  end.

Definition initial_WalkState : WalkState :=
  mk_WalkState new_EvalContext 0 [] [] [].

Definition traverse (h : Host) (fs : string -> FsTree) (paths : list string)
    (expr : Node) (opts : Options) : result Z * WalkState :=
  match traverse_loop h fs expr opts paths initial_WalkState with
  | (Some e, ws) => (Raise e, close ws)
  | (None, ws) => (Ret (total_matches ws), close ws)
  end.

(** ** Command line *)

Definition VERSION : string := "pyfind 0.1.0".

Definition HELP_TEXT : string := "
Usage: find [-H] [-L] [-P] [path...] [expression]

Default path is the current directory; default expression is -print.
Expression may consist of: operators, options, tests, and actions.

Operators (decreasing precedence; -and is implicit where no others are given):
      ( EXPR )   ! EXPR   -not EXPR   EXPR1 -a EXPR2   EXPR1 -and EXPR2
      EXPR1 -o EXPR2   EXPR1 -or EXPR2   EXPR1 , EXPR2

Positional options (always true):
      -daystart -files0-from FILE -follow -nowarn -regextype -warn

Normal options (always true, specified before other expressions):
      -depth -maxdepth LEVELS -mindepth LEVELS -mount -xdev -D debugopts

Tests (N can be +N or -N or N):
      -name PATTERN -iname PATTERN -path PATTERN -wholename PATTERN -iwholename PATTERN
      -regex PATTERN -iregex PATTERN -type [bcdpfls] -size N[bcwkMG]
      -mtime N -mmin N -atime N -amin N -ctime N -cmin N
      -perm [-/]MODE -uid N -gid N -user NAME -group NAME
      -links N -empty -readable -writable -executable
      -newer FILE -anewer FILE -cnewer FILE -inum N -lname PATTERN -ilname PATTERN
      -nouser -nogroup -true -false

Actions:
      -print -print0 -fprint FILE -fprint0 FILE -printf FORMAT -fprintf FILE FORMAT
      -ls -fls FILE -prune -quit -delete
      -exec COMMAND ; -exec COMMAND {} + -ok COMMAND ;
      -execdir COMMAND ; -execdir COMMAND {} + -okdir COMMAND ;

Other options:
      --help     display this help and exit
      --version  output version information and exit

Notes:
- This is a Python reimplementation with a practical subset. Some features are approximate.
- Default behavior is like -P (do not follow symlinks). Use -L to follow, -H for top-level only.
".

Definition EXPR_TOKENS : list string :=
  ["("; ")"; "!"; "-not"; "-a"; "-and"; "-o"; "-or"; ",";
   "-name"; "-iname"; "-path"; "-wholename"; "-iwholename";
   "-regex"; "-iregex";
   "-type"; "-size";
   "-mtime"; "-mmin"; "-atime"; "-amin"; "-ctime"; "-cmin";
   "-perm"; "-uid"; "-gid"; "-user"; "-group";
   "-links"; "-empty"; "-readable"; "-writable"; "-executable";
   "-newer"; "-anewer"; "-cnewer"; "-inum"; "-lname"; "-ilname";
   "-true"; "-false";
   "-print"; "-print0"; "-fprint"; "-fprint0"; "-printf"; "-fprintf";
   "-prune"; "-quit"; "-delete"; "-ls"; "-fls";
   "-exec"; "-execdir"; "-ok"; "-okdir"].

Definition OPTION_TOKENS : list string :=
  ["-H"; "-L"; "-P"; "-depth"; "-maxdepth"; "-mindepth"; "-mount"; "-xdev";
   "-daystart"; "-files0-from"; "-D"; "--help"; "--version"; "-follow"].

Definition set_follow (v : string) (o : Options) : Options :=
  mk_Options v (depth_first o) (maxdepth o) (mindepth o) (mount o) (daystart o)
    (files0_from o) (debug o).
Definition set_depth_first (v : bool) (o : Options) : Options :=
  mk_Options (follow o) v (maxdepth o) (mindepth o) (mount o) (daystart o)
    (files0_from o) (debug o).
Definition set_maxdepth (v : option Z) (o : Options) : Options :=
  mk_Options (follow o) (depth_first o) v (mindepth o) (mount o) (daystart o)
    (files0_from o) (debug o).
Definition set_mindepth (v : Z) (o : Options) : Options :=
  mk_Options (follow o) (depth_first o) (maxdepth o) v (mount o) (daystart o)
    (files0_from o) (debug o).
Definition set_mount (v : bool) (o : Options) : Options :=
  mk_Options (follow o) (depth_first o) (maxdepth o) (mindepth o) v (daystart o)
    (files0_from o) (debug o).
Definition set_daystart (v : bool) (o : Options) : Options :=
  mk_Options (follow o) (depth_first o) (maxdepth o) (mindepth o) (mount o) v
    (files0_from o) (debug o).
Definition set_files0_from (v : option string) (o : Options) : Options :=
  mk_Options (follow o) (depth_first o) (maxdepth o) (mindepth o) (mount o)
    (daystart o) v (debug o).
Definition set_debug (v : Debug) (o : Options) : Options :=
  mk_Options (follow o) (depth_first o) (maxdepth o) (mindepth o) (mount o)
    (daystart o) (files0_from o) v.

(** [s.split(sep)]; [cur] is the piece being read. *)
Fixpoint split_from (sep : ascii) (cur s : string) : list string :=
  match s with
  | EmptyString => [cur]
  | String c r =>
      if Ascii.eqb c sep then cur :: split_from sep EmptyString r
      else split_from sep (cur ++ String c EmptyString) r
  end.

Definition split (sep : ascii) (s : string) : list string :=
  split_from sep EmptyString s.

(** The second loop of [parse_global], reached after ["--"]. *)
Fixpoint parse_global_rest (argv paths tokens : list string)
    : list string * list string :=
  match argv with
  | [] => (paths, tokens)
  | a :: rest =>
      if str_in a EXPR_TOKENS || str_in a OPTION_TOKENS
         || str_in a ["--help"; "--version"] || str_in a ["("; ")"; "!"; ","]
         || startswith a "-"
      then (paths, (tokens ++ argv)%list)
      else parse_global_rest rest (paths ++ [a])%list tokens
  end.

Definition PGResult : Type :=
  (result (Options * list string * list string) * list Effect)%type.

(** The first loop of [parse_global], over [argv[i:]]. *)
Fixpoint parse_global_loop (h : Host) (argv : list string) (opts : Options)
    (paths tokens : list string) : PGResult :=
  match argv with
  | [] => (Ret (opts, paths, tokens), [])
  | a :: rest =>
      if a =? "--" then
        let '(paths', tokens') := parse_global_rest rest paths tokens in
        (Ret (opts, paths', tokens'), [])
      else if str_in a ["--help"; "--version"] then
        parse_global_loop h rest opts paths (tokens ++ [a])%list
      else if str_in a OPTION_TOKENS then
        if a =? "-H" then parse_global_loop h rest (set_follow "H" opts) paths tokens
        else if a =? "-L" then parse_global_loop h rest (set_follow "L" opts) paths tokens
        else if a =? "-P" then parse_global_loop h rest (set_follow "P" opts) paths tokens
        else if a =? "-follow" then
          parse_global_loop h rest (set_follow "L" opts) paths tokens
        else if a =? "-depth" then
          parse_global_loop h rest (set_depth_first true opts) paths tokens
        else if a =? "-maxdepth" then
          match rest with
          | [] => (Raise (SystemExitMsg "find: missing argument to -maxdepth"), [])
          | v :: rest' =>
              match py_int h v with
              | Some z =>
                  if (z <? 0)%Z then (Raise (SystemExitMsg "find: invalid -maxdepth"), [])
                  else parse_global_loop h rest' (set_maxdepth (Some z) opts) paths tokens
              | None => (Raise (SystemExitMsg "find: invalid -maxdepth"), [])
              end
          end
        else if a =? "-mindepth" then
          match rest with
          | [] => (Raise (SystemExitMsg "find: missing argument to -mindepth"), [])
          | v :: rest' =>
              match py_int h v with
              | Some z =>
                  if (z <? 0)%Z then (Raise (SystemExitMsg "find: invalid -mindepth"), [])
                  else parse_global_loop h rest' (set_mindepth z opts) paths tokens
              | None => (Raise (SystemExitMsg "find: invalid -mindepth"), [])
              end
          end
        else if str_in a ["-mount"; "-xdev"] then
          parse_global_loop h rest (set_mount true opts) paths tokens
        else if a =? "-daystart" then
          parse_global_loop h rest (set_daystart true opts) paths tokens
        else if a =? "-files0-from" then
          match rest with
          | [] => (Raise (SystemExitMsg "find: missing argument to -files0-from"), [])
          | v :: rest' =>
              parse_global_loop h rest' (set_files0_from (Some v) opts) paths tokens
          end
        else if a =? "-D" then
          match rest with
          | [] => (Raise (SystemExitMsg "find: missing argument to -D"), [])
          | val :: rest' =>
              if val =? "help" then
                (Raise (SystemExitCode 0),
                 [StdoutWrite
                    ("Valid arguments for -D:" ++ NL
                     ++ "exec, opt, rates, search, stat, time, tree, all, help" ++ NL)])
              else
                let cats :=
                  filter (fun v => negb (v =? ""))
                    (map (str_strip h) (split "," val)) in
                parse_global_loop h rest' (set_debug (mk_Debug true cats) opts)
                  paths tokens
          end
        else parse_global_loop h rest opts paths tokens
      else if str_in a EXPR_TOKENS || startswith a "-" then
        (Ret (opts, paths, (tokens ++ argv)%list), [])
      else parse_global_loop h rest opts (paths ++ [a])%list tokens
  end.

Definition parse_global (h : Host) (argv : list string) : PGResult :=
  parse_global_loop h argv default_Options [] [].

Definition iter_start_paths (h : Host) (opts : Options) (cli_paths : list string)
    : result (list string) :=
  let from_file :=
    match truthy (files0_from opts) with
    | Some f =>
        match read_bytes h f with
        | Some data =>
            Ret (filter (fun p => negb (p =? "")) (split (ascii_of_nat 0) data))
        | None => Raise (OSError f)
        end
    | None => Ret []
    end in
  match from_file with
  | Raise e => Raise e
  | Ret l =>
      let paths := (l ++ cli_paths)%list in
      Ret (match paths with [] => ["."] | _ => paths end)
  end.

Definition list_string_eqb (a b : list string) : bool :=
  if list_eq_dec string_dec a b then true else false.

Definition only_effects (es : list Effect) : WalkState :=
  mk_WalkState new_EvalContext 0 [] es [].

(** [main(argv)]: what it returns or raises, and the state of the run.
    [None] only if the parser ran out of fuel. *)
Definition main (h : Host) (fs : string -> FsTree) (argv : list string)
    : option (result Z * WalkState) :=
  match argv with
  | [] =>
      match traverse h fs ["."] (PrintNode false) default_Options with
      | (Ret _, ws) => Some (Ret 0, ws)
      | (Raise e, ws) => Some (Raise e, ws)
      end
  | _ =>
      match parse_global h argv with
      | (Raise e, es) => Some (Raise e, only_effects es)
      | (Ret (opts, paths, rest), es) =>
          if list_string_eqb rest ["--help"] then
            Some (Ret 0, only_effects (es ++ [StdoutWrite (HELP_TEXT ++ NL)]))
          else if list_string_eqb rest ["--version"] then
            Some (Ret 0, only_effects (es ++ [StdoutWrite (VERSION ++ NL)]))
          else
            let parsed :=
              match rest with
              | [] => Some (Ret (PrintNode false))
              | _ =>
                  match parse_expression h rest opts with
                  | None => None
                  | Some (Ret (expr, _)) => Some (Ret expr)
                  | Some (Raise e) => Some (Raise e)
                  end
              end in
            match parsed with
            | None => None
            | Some (Raise (ValueError e)) =>
                Some (Ret 1, only_effects (es ++ [StderrWrite ("find: " ++ e ++ NL)]))
            | Some (Raise e) => Some (Raise e, only_effects es)
            | Some (Ret expr) =>
                match iter_start_paths h opts paths with
                | Raise e => Some (Raise e, only_effects es)
                | Ret start_paths =>
                    match traverse h fs start_paths expr opts with
                    | (Ret _, ws) => Some (Ret 0, ws)
                    | (Raise KeyboardInterrupt, ws) => Some (Ret 130, ws)
                    | (Raise e, ws) => Some (Raise e, ws)
                    end
                end
            end
      end
  end.

(** [sys.exit(main(sys.argv[1:]))]: the exit status of the process and what
    the interpreter itself writes to the error stream. *)
Definition exit_status (h : Host) (r : result Z) : Z * list Effect :=
  match r with
  | Ret code => (code, [])
  | Raise (SystemExitCode code) => (code, [])
  | Raise (SystemExitMsg msg) => (1, [StderrWrite (msg ++ NL)])
  | Raise e => (1, [StderrWrite (py_traceback h e)])
  end.

(** ** A sample host and sample file systems

    Used to run the definitions on concrete inputs. *)

Fixpoint all_digits (s : string) : bool :=
  match s with
  | EmptyString => true
  | String c r => is_digit c && all_digits r
  end.

Fixpoint int_of_digits (acc : Z) (s : string) : Z :=
  match s with
  | EmptyString => acc
  | String c r => int_of_digits (10 * acc + (Z.of_nat (nat_of_ascii c) - 48)) r
  end.

(** Decimal literals with an optional sign. *)
Definition sample_int (s : string) : option Z :=
  let '(neg, body) :=
    match s with
    | String c r =>
        if Ascii.eqb c "-" then (true, r)
        else if Ascii.eqb c "+" then (false, r)
        else (false, s)
    | EmptyString => (false, s)
    end in
  if (body =? "") || negb (all_digits body) then None
  else Some (if neg then - int_of_digits 0 body else int_of_digits 0 body).

(** The code point a character stands for. *)
Definition code_point (ch : string) : option Z :=
  let byte c := Z.of_nat (nat_of_ascii c) in
  match list_ascii_of_string ch with
  | [a] => if is_ascii a then Some (byte a) else None
  | [a; b] =>
      if (192 <=? byte a)%Z && (byte a <? 224)%Z
      then Some ((byte a - 192) * 64 + (byte b - 128)) else None
  | [a; b; c] =>
      if (224 <=? byte a)%Z && (byte a <? 240)%Z
      then Some ((byte a - 224) * 4096 + (byte b - 128) * 64 + (byte c - 128))
      else None
  | [a; b; c; d] =>
      if (240 <=? byte a)%Z && (byte a <? 248)%Z
      then Some ((byte a - 240) * 262144 + (byte b - 128) * 4096
                 + (byte c - 128) * 64 + (byte d - 128))
      else None
  | _ => None
  end.

(** The digits zero of the decimal digits of Unicode 14 beyond ASCII, each
    followed by its digits one to nine. *)
Definition decimal_zeros : list Z :=
  [1632; 1776; 1984; 2406; 2534; 2662; 2790; 2918; 3046; 3174; 3302; 3430;
   3558; 3664; 3792; 3872; 4160; 4240; 6112; 6160; 6470; 6608; 6784; 6800;
   6992; 7088; 7232; 7248; 42528; 43216; 43264; 43472; 43504; 43600; 44016;
   65296; 66720; 68912; 69734; 69872; 69942; 70096; 70384; 70736; 70864;
   71248; 71360; 71472; 71904; 72016; 72784; 73040; 73120; 92768; 92864;
   93008; 120782; 120792; 120802; 120812; 120822; 123200; 123632; 125264;
   130032].

Definition sample_unicode_decimal (ch : string) : option nat :=
  match code_point ch with
  | Some cp =>
      match find (fun z => (z <=? cp)%Z && (cp <=? z + 9)%Z) decimal_zeros with
      | Some z => Some (Z.to_nat (cp - z))
      | None => None
      end
  | None => None
  end.

Definition sample_host : Host :=
  mk_Host
    sample_int
    (fun _ => None)
    (fun s => "'" ++ s ++ "'")
    (fun _ => "0")
    (fun s => s)
    (fun s => s)
    (fun subject pat => (pat =? "*") || (subject =? pat))
    (fun _ => true)
    (fun pat _ subject => pat =? subject)
    0%Q
    (fun t => t)
    (fun _ => StatNotFound)
    (fun _ => None)
    (fun _ => None)
    (fun _ => Some "root")
    (fun _ => Some "root")
    (fun _ _ => true)
    (fun _ => ScanOk [])
    (fun _ => None)
    (fun _ => true)
    (fun _ => None)
    (fun _ => None)
    (fun s => s)
    (fun fi => path fi)
    (fun cmd => String.concat " " cmd)
    (fun _ => "y")
    (fun _ _ => Exited 0)
    (fun _ => None)
    (fun _ => "Traceback (most recent call last): ...")
    sample_unicode_decimal
    4300.

Definition sample_stat (mode size ino : Z) : stat_result :=
  mk_stat mode ino 1 1 0 0 size 0%Q 0%Q 0%Q.

Definition regular_file (size ino : Z) : FsTree :=
  Entry (sample_stat 33188 size ino) (Some (sample_stat 33188 size ino)) false NoMore.

Definition directory (ino : Z) (children : Forest) : FsTree :=
  Entry (sample_stat 16877 4096 ino) (Some (sample_stat 16877 4096 ino)) false children.

(** A FIFO with nothing in it: mode [0o010644], size 0. *)
Definition fifo_info : FileInfo :=
  mk_FileInfo "/tmp/t/pipe" "pipe" 1 (sample_stat 4516 0 7) (sample_stat 4516 0 7)
    false false.

(** A file of one byte. *)
Definition one_byte_info : FileInfo :=
  mk_FileInfo "/tmp/t/one" "one" 1 (sample_stat 33188 1 8) (sample_stat 33188 1 8)
    false false.

(** [/tmp/t] holding [a.txt] (5 bytes) and [sub/], which holds [b.log]. *)
Definition sample_tree : FsTree :=
  directory 2
    (Child "a.txt" (regular_file 5 3)
       (Child "sub" (directory 4 (Child "b.log" (regular_file 0 5) NoMore))
          NoMore)).

(** [link]: a symbolic link (mode [0o120777]) to a directory that holds
    [inside.txt]; [os.stat] on it finds the directory, [os.scandir] on it
    lists the directory. *)
Definition link_to_dir : FsTree :=
  Entry (sample_stat 41471 9 10) (Some (sample_stat 16877 4096 11)) false
    (Child "inside.txt" (regular_file 3 12) NoMore).

Definition sample_fs (p : string) : FsTree :=
  if p =? "/tmp/t" then sample_tree
  else if p =? "." then sample_tree
  else if p =? "link" then link_to_dir
  else Absent.

Definition options_H : Options := set_follow "H" default_Options.

(** The paths on which the expression was evaluated, in order. *)
Definition evaluated_paths (ws : WalkState) : list string :=
  flat_map (fun e => match e with Evaluate ev => [ev_path ev] | Visit _ _ _ => [] end)
    (history ws).

(** What was written to standard output, in order. *)
Definition stdout_of (es : list Effect) : list string :=
  flat_map (fun e => match e with StdoutWrite s => [s] | _ => [] end) es.

(** ** Definitions used in the statements and proofs *)

(** The body of [walk] on an entry that exists, cut into the stages its
    comments name, with the loop over the children abstracted as [descend];
    [walk] on [Entry lst target denied children] is [walk_body] with
    [descend := walk_entries ... children ...] (lemma [walk_Entry]). *)
Definition pre_order (h : Host) (expr : Node) (opts : Options) (fi : FileInfo)
    (ws : WalkState) : option exn * WalkState * bool :=
  if negb (depth_first opts) || negb (is_dir fi) then
    match evaluate h expr fi false ws with
    | (exc, ws') => (exc, ws', prune_flag (ctx ws') && is_dir fi)
    end
  else (None, ws, false).

Definition decide_recurse (opts : Options) (start_dev : Z) (lst : stat_result)
    (depth : Z) (prune_here : bool) (ws : WalkState) : bool * WalkState :=
  let is_dir := S_ISDIR (st_mode lst) in
  let do_recurse := is_dir && negb prune_here in
  let do_recurse :=
    match maxdepth opts with
    | Some m => if (depth >=? m)%Z then false else do_recurse
    | None => do_recurse
    end in
  let do_recurse :=
    if mount opts && is_dir && negb (st_dev lst =? start_dev)%Z
    then false else do_recurse in
  if is_dir && (follow opts =? "L") then
    let key := (st_dev lst, st_ino lst) in
    if key_in key (visited_dirs ws) then (false, ws)
    else (do_recurse, with_visited (key :: visited_dirs ws) ws)
  else (do_recurse, ws).

Definition read_and_recurse (opts : Options) (denied : bool)
    (descend : WalkState -> option exn * WalkState) (path : string)
    (do_recurse : bool) (ws : WalkState) : option exn * WalkState :=
  if do_recurse && negb (quit (ctx ws)) then
    if denied then
      (None,
       if debug_on (debug opts) "search"
       then add_effects
              [StderrWrite ("[DEBUG:search] Permission denied: " ++ path ++ NL)] ws
       else ws)
    else descend ws
  else (None, ws).

Definition post_order (h : Host) (expr : Node) (opts : Options) (fi : FileInfo)
    (ws : WalkState) : option exn * WalkState :=
  if depth_first opts && is_dir fi && negb (quit (ctx ws))
  then evaluate h expr fi true ws
  else (None, ws).

Definition walk_body (h : Host) (expr : Node) (opts : Options) (start_dev : Z)
    (lst : stat_result) (target : option stat_result) (denied : bool)
    (descend : WalkState -> option exn * WalkState)
    (path : string) (depth : Z) (ws : WalkState) : option exn * WalkState :=
  if quit (ctx ws) then (None, ws)
  else
    let fi := make_FileInfo opts lst target path depth in
    let '(exc, ws, prune_here) := pre_order h expr opts fi (enter opts path depth ws) in
    match exc with
    | Some e => (Some e, ws)
    | None =>
        let '(do_recurse, ws) := decide_recurse opts start_dev lst depth prune_here ws in
        let '(exc, ws) := read_and_recurse opts denied descend path do_recurse ws in
        match exc with
        | Some e => (Some e, ws)
        | None => post_order h expr opts fi ws
        end
    end.

(** Whether [walk] at [depth] may go on to the children, as far as
    [-maxdepth] is concerned. *)
Definition below_maxdepth (opts : Options) (depth : Z) : Prop :=
  match maxdepth opts with
  | Some m => depth < m
  | None => True
  end.

(** No evaluation in [l] left the quit flag set. *)
Definition quit_free (l : list Event) : Prop :=
  Forall (fun e => match e with
                   | Evaluate ev => ev_quit ev = false
                   | Visit _ _ _ => True
                   end) l.

(** The history is sealed by quitting: only its last event may be an
    evaluation that set the quit flag, and only if the flag is set now. *)
Definition sealed (ws : WalkState) : Prop :=
  quit_free (removelast (history ws))
  /\ (quit (ctx ws) = false -> quit_free (history ws)).

(** Effects on the error stream. *)
Definition is_stderr (e : Effect) : bool :=
  match e with
  | StderrWrite _ => true
  | _ => false
  end.

(** Two states of the walk that differ at most in the prune flag. *)
Definition same_but_prune (a b : WalkState) : Prop :=
  with_ctx (set_prune_flag false (ctx a)) a = with_ctx (set_prune_flag false (ctx b)) b.

(** The spec's reading of the size test: [blocks] is the size in units of
    [mul] bytes rounded up, that is the least number of units that hold
    [size] bytes. *)
Definition is_ceiling (size mul blocks : Z) : Prop :=
  (blocks - 1) * mul < size <= blocks * mul.

(** The grouping the specification gives to [A -o B , C]. *)
Definition spec_grouping (a b c : Node) : Node := CommaNode (OrNode a b) c.

(** The empty test as the specification words it: true exactly for a
    zero-byte regular file or a directory with zero entries. *)
Definition empty_claim (h : Host) (fi : FileInfo) : Prop :=
  fst (fst (eval h EmptyNode fi new_EvalContext)) = Ret true
  <-> (S_ISREG (mode fi) = true /\ st_size (lstat fi) = 0)
      \/ (S_ISDIR (mode fi) = true /\ os_scandir h (path fi) = ScanOk []).

(** A computation keeps a property of the context. *)
Definition keeps {A} (Q : EvalContext -> Prop) (m : M A) : Prop :=
  forall c, Q c -> Q (snd (fst (m c))).

(** Effects other than messages on the error stream and the closing of
    output files: what is printed or written, deletions, subprocesses, the
    prompt. *)
Definition is_output (e : Effect) : bool :=
  match e with
  | StderrWrite _ | FileClose _ => false
  | _ => true
  end.

(** The effects of the evaluations of a history, in order. *)
Definition effects_of (l : list Event) : list Effect :=
  flat_map (fun e => match e with
                     | Evaluate ev => ev_effects ev
                     | Visit _ _ _ => []
                     end) l.

(** Output accounting: what the run printed, wrote, deleted or executed is
    what its evaluations did. *)
Definition accounted (ws : WalkState) : Prop :=
  filter is_output (effects ws) = filter is_output (effects_of (history ws)).

(** Two outcomes of a walk that agree: the same exception or none, and
    final states that differ at most in the prune flag. *)
Definition agree (x y : option exn * WalkState) : Prop :=
  fst x = fst y /\ same_but_prune (snd x) (snd y).

(** What [parse_global] guarantees of [-maxdepth] and [-mindepth]. *)
Definition depths_checked (o : Options) : Prop :=
  match maxdepth o with
  | Some m => 0 <= m
  | None => True
  end /\ 0 <= mindepth o.

(** What the depth bound says of one event of the history. *)
Definition within_maxdepth (opts : Options) (m : Z) (e : Event) : Prop :=
  match e with
  | Visit _ d s => d <= m /\ (d >? m)%Z = false /\ s = (d <? mindepth opts)%Z
  | Evaluate ev => ev_depth ev <= m
  end.


(** A parsing step that returns leaves no more tokens than it was given. *)
Definition shorter (ts : Tokens) (r : result (Node * Tokens)) : Prop :=
  match r with
  | Ret (_, ts') => (List.length ts' <= List.length ts)%nat
  | Raise _ => True
  end.

(** The step did not run out of fuel, and is [shorter]. *)
Definition parses (ts : Tokens) (o : option (result (Node * Tokens))) : Prop :=
  exists r, o = Some r /\ shorter ts r.

(** Moreover it consumed a token if there was one. *)
Definition parses_strictly (ts : Tokens) (o : option (result (Node * Tokens)))
    : Prop :=
  exists r, o = Some r /\ shorter ts r
            /\ match r with
               | Ret (_, ts') => ts <> [] -> (List.length ts' < List.length ts)%nat
               | Raise _ => True
               end.

(** ** Definitions for further properties *)




(** The characters of a size specification are a sign [g], if any, one or
    more decimal digits [d] of values [vs], and a unit letter [suf], if
    any. *)
Definition size_spec_shape (h : Host) (g : string) (d : list string)
    (vs : list nat) (suf : string) : Prop :=
  In g [""; "+"; "-"] /\ d <> []
  /\ Forall2 (fun ch v => decimal_value h ch = Some v) d vs
  /\ In suf [""; "b"; "c"; "w"; "k"; "M"; "G"].

(** The number a decimal numeral denotes, most significant digit first. *)
Fixpoint numeral_value (vs : list nat) : Z :=
  match vs with
  | [] => 0
  | v :: r => Z.of_nat v * 10 ^ Z.of_nat (List.length r) + numeral_value r
  end.

(** [int] converts a numeral of that many digits. *)
Definition within_int_limit (h : Host) (digits : nat) : Prop :=
  (digits <= 640 \/ int_max_str_digits h = 0 \/ digits <= int_max_str_digits h)%nat.

(** The multiplier of a unit letter, as a table. *)
Definition unit_bytes (suf : string) : Z :=
  if suf =? "c" then 1
  else if suf =? "w" then 2
  else if suf =? "k" then 1024
  else if suf =? "M" then 1048576
  else if suf =? "G" then 1073741824
  else 512.


















(** * Properties *)

(** ** Evaluation of nodes *)

Lemma bind_Ret {A B} (m : M A) (k : A -> M B) c a c1 es1 :
  m c = (Ret a, c1, es1) ->
  bind m k c = (let '(r, c2, es2) := k a c1 in (r, c2, (es1 ++ es2)%list)).
Proof. intros E. unfold bind. rewrite E. reflexivity. Qed.

Lemma bind_Raise {A B} (m : M A) (k : A -> M B) c e c1 es1 :
  m c = (Raise e, c1, es1) -> bind m k c = (Raise e, c1, es1).
Proof. intros E. unfold bind. rewrite E. reflexivity. Qed.

(** C5. AND and OR short-circuit: when the left operand of [-a] is false, or
    the left operand of [-o] is true, the evaluation of the whole node is
    the evaluation of the left operand alone (same value, same context, same
    effects), whatever the right operand is; in particular [-false -a R]
    and [-true -o R] do nothing, for every [R]. *)
Theorem and_or_short_circuit (h : Host) (l r : Node) (fi : FileInfo)
    (c : EvalContext) :
  (forall c' es, eval h l fi c = (Ret false, c', es) ->
                 eval h (AndNode l r) fi c = (Ret false, c', es))
  /\ (forall c' es, eval h l fi c = (Ret true, c', es) ->
                    eval h (OrNode l r) fi c = (Ret true, c', es))
  /\ eval h (AndNode (BoolNode false) r) fi c = (Ret false, c, [])
  /\ eval h (OrNode (BoolNode true) r) fi c = (Ret true, c, []).
Proof.
  repeat split.
  - intros c' es E. simpl. rewrite (bind_Ret _ _ _ _ _ _ E). simpl.
    unfold ret. now rewrite app_nil_r.
  - intros c' es E. simpl. rewrite (bind_Ret _ _ _ _ _ _ E). simpl.
    unfold ret. now rewrite app_nil_r.
Qed.

Lemma and_or_short_circuit_witness :
  eval sample_host (AndNode (AndNode (PrintNode false) (BoolNode false)) DeleteNode)
    one_byte_info new_EvalContext
  = (Ret false, new_EvalContext, [StdoutWrite ("/tmp/t/one" ++ NL)])
  /\ eval sample_host (OrNode (PrintNode false) DeleteNode) one_byte_info new_EvalContext
     = (Ret true, new_EvalContext, [StdoutWrite ("/tmp/t/one" ++ NL)]).
Proof.
  split.
  - apply (proj1 (and_or_short_circuit sample_host
                    (AndNode (PrintNode false) (BoolNode false)) DeleteNode
                    one_byte_info new_EvalContext)).
    reflexivity.
  - apply (proj1 (proj2 (and_or_short_circuit sample_host (PrintNode false) DeleteNode
                           one_byte_info new_EvalContext))).
    reflexivity.
Defined.

(** ** The size test *)

Lemma chars_head (c : ascii) (r : string) :
  exists k rest,
    chars (String c r) = String c k :: rest /\ (is_ascii c = true -> k = "").
Proof.
  cbn [chars]. destruct (chars r) as [|ch rest].
  - exists "", []. auto.
  - destruct (is_ascii c); cbn [negb andb].
    + exists "", (ch :: rest). auto.
    + destruct (continues r).
      * exists ch, rest. split; [reflexivity|discriminate].
      * exists "", (ch :: rest). auto.
Qed.

Lemma sign_is_no_digit (h : Host) (ch : string) (v : nat) :
  decimal_value h ch = Some v -> ((ch =? "+") || (ch =? "-"))%bool = false.
Proof.
  intros D. destruct (ch =? "+") eqn:P.
  - apply String.eqb_eq in P. subst ch. discriminate.
  - destruct (ch =? "-") eqn:M; [|reflexivity].
    apply String.eqb_eq in M. subst ch. discriminate.
Qed.

Lemma span_decimal_spec (h : Host) (cs : list string) :
  forall d rest,
    span_decimal h cs = (d, rest) ->
    cs = (d ++ rest)%list
    /\ exists vs, Forall2 (fun ch v => decimal_value h ch = Some v) d vs.
Proof.
  induction cs as [|ch cs IH]; intros d rest; cbn [span_decimal].
  - intros [= <- <-]. split; [reflexivity|]. exists []. constructor.
  - destruct (decimal_value h ch) as [v|] eqn:D.
    + destruct (span_decimal h cs) as [d' rest'].
      intros [= <- <-]. destruct (IH _ _ eq_refl) as [-> [vs F]].
      split; [reflexivity|]. exists (v :: vs). now constructor.
    + intros [= <- <-]. split; [reflexivity|]. exists []. constructor.
Qed.

Lemma span_decimal_app (h : Host) (d : list string) (vs : list nat)
    (tail : list string) :
  Forall2 (fun ch v => decimal_value h ch = Some v) d vs ->
  span_decimal h tail = ([], tail) ->
  span_decimal h (d ++ tail) = (d, tail).
Proof.
  intros F T. induction F as [|ch v d vs D F IH]; [exact T|].
  cbn [app span_decimal]. now rewrite D, IH.
Qed.

Lemma int_of_decimal_value (h : Host) (d : list string) (vs : list nat) :
  Forall2 (fun ch v => decimal_value h ch = Some v) d vs ->
  forall acc,
    int_of_decimal h acc d = acc * 10 ^ Z.of_nat (List.length vs) + numeral_value vs.
Proof.
  induction 1 as [|ch v d vs D F IH]; intros acc.
  - cbn. lia.
  - cbn [int_of_decimal numeral_value List.length]. rewrite D, IH.
    rewrite Nat2Z.inj_succ, Z.pow_succ_r by lia. ring.
Qed.


Lemma unit_letter_chars (u : string) :
  str_in u ["b"; "c"; "w"; "k"; "M"; "G"] = true ->
  chars u = [u] /\ In u [""; "b"; "c"; "w"; "k"; "M"; "G"].
Proof.
  unfold str_in. cbn [existsb]. rewrite !orb_true_iff.
  intros H.
  repeat match goal with
         | H : _ \/ _ |- _ => destruct H as [H|H]
         | H : (_ =? _) = true |- _ => apply String.eqb_eq in H; subst u
         end; try discriminate; (split; [reflexivity|cbn; auto 10]).
Qed.

Lemma size_spec_tail_sound (h : Host) (sg : string) (cs : list string)
    (g : string) (d : list string) (suf : string) :
  (let '(digits, sf) := span_decimal h cs in
   match digits, sf with
   | [], _ => None
   | _ :: _, [] => Some (sg, digits, "")
   | _ :: _, [u] =>
       if str_in u ["b"; "c"; "w"; "k"; "M"; "G"] then Some (sg, digits, u) else None
   | _ :: _, _ :: _ :: _ => None
   end) = Some (g, d, suf) ->
  sg = g
  /\ exists vs,
       cs = (d ++ chars suf)%list /\ d <> []
       /\ Forall2 (fun ch v => decimal_value h ch = Some v) d vs
       /\ In suf [""; "b"; "c"; "w"; "k"; "M"; "G"].
Proof.
  destruct (span_decimal h cs) as [d' sf] eqn:S.
  destruct (span_decimal_spec _ _ _ _ S) as [-> [vs F]].
  destruct d' as [|ch d']; [discriminate|].
  destruct sf as [|u [|u' sf]]; [| |discriminate]; cbv beta iota zeta.
  - intros H. inversion H; subst. split; [reflexivity|]. exists vs.
    cbn [chars]. rewrite !app_nil_r. split; [reflexivity|].
    split; [discriminate|]. split; [exact F|]. cbn; auto.
  - destruct (str_in u _) eqn:U; [|discriminate].
    intros H. inversion H; subst. destruct (unit_letter_chars _ U) as [C I'].
    split; [reflexivity|]. exists vs. rewrite C. split; [reflexivity|].
    split; [discriminate|]. split; [exact F|exact I'].
Qed.

Lemma size_spec_groups_sound (h : Host) (spec g : string) (d : list string)
    (suf : string) :
  size_spec_groups h spec = Some (g, d, suf) ->
  exists vs,
    chars spec = (chars g ++ d ++ chars suf)%list /\ size_spec_shape h g d vs suf.
Proof.
  unfold size_spec_groups, size_spec_shape.
  destruct (chars spec) as [|ch r] eqn:C.
  - intros H. apply (size_spec_tail_sound h "" []) in H.
    destruct H as [<- [vs [E [N _]]]]. destruct d; [congruence|discriminate].
  - destruct ((ch =? "+") || (ch =? "-"))%bool eqn:E.
    + assert (Hch : In ch [""; "+"; "-"] /\ chars ch = [ch]).
      { apply orb_true_iff in E. destruct E as [E|E]; apply String.eqb_eq in E;
          subst ch; cbn; auto. }
      destruct Hch as [Hin Hc].
      intros H. apply (size_spec_tail_sound h ch r) in H.
      destruct H as [<- [vs [-> Sh]]].
      exists vs. rewrite Hc. split; [reflexivity|]. split; [exact Hin|exact Sh].
    + intros H. apply (size_spec_tail_sound h "" (ch :: r)) in H.
      destruct H as [<- [vs [-> Sh]]].
      exists vs. split; [reflexivity|]. split; [cbn; auto|exact Sh].
Qed.

Lemma unit_chars_span (h : Host) (suf : string) :
  In suf [""; "b"; "c"; "w"; "k"; "M"; "G"] ->
  span_decimal h (chars suf) = ([], chars suf)
  /\ (chars suf = [] /\ suf = ""
      \/ chars suf = [suf] /\ str_in suf ["b"; "c"; "w"; "k"; "M"; "G"] = true).
Proof.
  cbn [In]. intros H.
  repeat match goal with
         | H : _ \/ _ |- _ => destruct H as [H|H]
         end; try contradiction; subst suf;
    (split; [reflexivity|]); [left|right ..]; split; reflexivity.
Qed.

Lemma size_spec_groups_complete (h : Host) (spec g : string) (d : list string)
    (vs : list nat) (suf : string) :
  chars spec = (chars g ++ d ++ chars suf)%list ->
  size_spec_shape h g d vs suf ->
  size_spec_groups h spec = Some (g, d, suf).
Proof.
  intros C (Hg & Hd & F & Hs).
  destruct (unit_chars_span h suf Hs) as [T U].
  pose proof (span_decimal_app h d vs (chars suf) F T) as S.
  assert (Tail :
            (let '(digits, sf) := span_decimal h (d ++ chars suf) in
             match digits, sf with
             | [], _ => None
             | _ :: _, [] => Some (g, digits, "")
             | _ :: _, [u] =>
                 if str_in u ["b"; "c"; "w"; "k"; "M"; "G"]
                 then Some (g, digits, u) else None
             | _ :: _, _ :: _ :: _ => None
             end) = Some (g, d, suf)).
  { rewrite S. destruct d as [|ch d]; [congruence|].
    destruct U as [[-> ->]|[-> ->]]; reflexivity. }
  unfold size_spec_groups. rewrite C.
  cbn [In] in Hg. destruct Hg as [<-|[<-|[<-|[]]]].
  - cbn [chars app]. destruct d as [|ch d]; [congruence|].
    cbn [app] in *. inversion F as [|? v ? vs' D F']; subst.
    rewrite (sign_is_no_digit h ch v D). exact Tail.
  - exact Tail.
  - exact Tail.
Qed.

Lemma size_spec_sign (h : Host) (spec g : string) (d : list string) (vs : list nat)
    (suf : string) :
  chars spec = (chars g ++ d ++ chars suf)%list ->
  size_spec_shape h g d vs suf ->
  (if g =? "" then "=" else g)
  = (if startswith spec "+" then "+" else if startswith spec "-" then "-" else "=").
Proof.
  intros C (Hg & Hd & F & Hs).
  destruct spec as [|c r].
  { cbn [chars] in C. destruct g; [|destruct Hg as [E|[E|[E|[]]]];
                                     inversion E; subst; discriminate].
    destruct d; [congruence|discriminate]. }
  destruct (chars_head c r) as (k & rest & E & A). rewrite E in C.
  unfold startswith. cbn [String.prefix].
  cbn [In] in Hg. destruct Hg as [<-|[<-|[<-|[]]]]; cbn [chars app] in C.
  - destruct d as [|ch d]; [congruence|].
    cbn [app] in C. injection C as Hc _. subst ch.
    inversion F as [|? v ? vs' D F']; subst.
    destruct (ascii_dec "+" c) as [<-|_].
    { rewrite (A eq_refl) in D. discriminate. }
    destruct (ascii_dec "-" c) as [<-|_].
    { rewrite (A eq_refl) in D. discriminate. }
    reflexivity.
  - injection C as Hc _ _. subst c. destruct (ascii_dec "+" "+"); [|congruence].
    destruct r; reflexivity.
  - injection C as Hc _ _. subst c. destruct (ascii_dec "+" "-"); [discriminate|].
    destruct (ascii_dec "-" "-"); [|congruence]. destruct r; reflexivity.
Qed.

Lemma unit_bytes_table (suf : string) :
  In suf [""; "b"; "c"; "w"; "k"; "M"; "G"] ->
  (if suf =? "" then 512
   else if suf =? "b" then 512
   else if suf =? "c" then 1
   else if suf =? "w" then 2
   else if suf =? "k" then 1024
   else if suf =? "M" then 1024 * 1024
   else if suf =? "G" then 1024 * 1024 * 1024
   else 1) = unit_bytes suf
  /\ 0 < unit_bytes suf.
Proof.
  cbn [In]. intros H.
  repeat match goal with
         | H : _ \/ _ |- _ => destruct H as [H|H]
         end; try contradiction; subst suf; split; reflexivity.
Qed.

Lemma int_decimal_within (h : Host) (d : list string) (vs : list nat) :
  Forall2 (fun ch v => decimal_value h ch = Some v) d vs ->
  within_int_limit h (List.length d) ->
  int_decimal h d = Ret (numeral_value vs).
Proof.
  intros F W. unfold int_decimal.
  assert (E : ((640 <? List.length d) && (0 <? int_max_str_digits h)
               && (int_max_str_digits h <? List.length d))%nat = false).
  { unfold within_int_limit in W.
    destruct (Nat.ltb_spec 640 (List.length d)); [|reflexivity].
    destruct (Nat.ltb_spec 0 (int_max_str_digits h)); [|reflexivity].
    destruct (Nat.ltb_spec (int_max_str_digits h) (List.length d)); [|reflexivity].
    lia. }
  rewrite E, (int_of_decimal_value h d vs F). f_equal; lia.
Qed.

Lemma int_decimal_returns (h : Host) (d : list string) (vs : list nat) (n : Z) :
  Forall2 (fun ch v => decimal_value h ch = Some v) d vs ->
  int_decimal h d = Ret n ->
  n = numeral_value vs /\ within_int_limit h (List.length d).
Proof.
  intros F. unfold int_decimal, within_int_limit.
  destruct (Nat.ltb_spec 640 (List.length d)); cbn [andb].
  2:{ intros [= <-]. rewrite (int_of_decimal_value h d vs F). split; lia. }
  destruct (Nat.ltb_spec 0 (int_max_str_digits h)); cbn [andb].
  2:{ intros [= <-]. rewrite (int_of_decimal_value h d vs F). split; lia. }
  destruct (Nat.ltb_spec (int_max_str_digits h) (List.length d)); [discriminate|].
  intros [= <-]. rewrite (int_of_decimal_value h d vs F). split; lia.
Qed.

Lemma ceiling_division (size mul : Z) :
  0 < mul -> is_ceiling size mul ((size + mul - 1) / mul).
Proof.
  intros Hm. unfold is_ceiling.
  pose proof (Z.div_mod (size + mul - 1) mul ltac:(lia)) as E.
  pose proof (Z.mod_pos_bound (size + mul - 1) mul Hm) as B.
  split; nia.
Qed.

(** What [size_bytes_from_spec] returns, read off the characters of the
    specification. *)
Lemma size_spec_returns (h : Host) (spec sg : string) (n mul : Z) :
  size_bytes_from_spec h spec = Ret (sg, n, mul) ->
  exists g d vs suf,
    chars spec = (chars g ++ d ++ chars suf)%list
    /\ size_spec_shape h g d vs suf
    /\ within_int_limit h (List.length d)
    /\ sg = (if g =? "" then "=" else g)
    /\ n = numeral_value vs
    /\ mul = unit_bytes suf.
Proof.
  unfold size_bytes_from_spec.
  destruct (size_spec_groups h spec) as [[[g d] suf]|] eqn:G; [|discriminate].
  destruct (size_spec_groups_sound _ _ _ _ _ G) as [vs [C Sh]].
  destruct (int_decimal h d) as [n'|e] eqn:I; [|discriminate].
  intros E. injection E as <- <- <-.
  destruct (int_decimal_returns h d vs n' (proj1 (proj2 (proj2 Sh))) I) as [-> W].
  exists g, d, vs, suf.
  repeat (split; [first [exact C|exact Sh|exact W|reflexivity]|]).
  apply unit_bytes_table, Sh.
Qed.

Lemma size_spec_accepts (h : Host) (spec g : string) (d : list string)
    (vs : list nat) (suf : string) :
  chars spec = (chars g ++ d ++ chars suf)%list ->
  size_spec_shape h g d vs suf ->
  within_int_limit h (List.length d) ->
  size_bytes_from_spec h spec
  = Ret (if g =? "" then "=" else g, numeral_value vs, unit_bytes suf).
Proof.
  intros C Sh W. unfold size_bytes_from_spec.
  rewrite (size_spec_groups_complete h spec g d vs suf C Sh).
  rewrite (int_decimal_within h d vs (proj1 (proj2 (proj2 Sh))) W).
  now rewrite (proj1 (unit_bytes_table suf (proj2 (proj2 (proj2 Sh))))).
Qed.

(** C6. The size test compares the file's size in units of [mul] bytes,
    rounded up, against [N].  A specification the parser accepts is, by its
    characters, an optional sign, one or more decimal digits and an
    optional unit letter; [N] is the number the digits denote and [mul] is
    the unit of the letter: 512 bytes for [b] and for none, 1 for [c], 2
    for [w], 1024 for [k], 1048576 for [M], 1073741824 for [G].  The number
    compared is the ceiling of size/[mul], and the comparison is
    strictly-greater for [+], strictly-less for [-] and equality with no
    sign.  Conversely every specification of that form is accepted with
    these values, unless its numeral is too long for the interpreter.  A
    file of one byte matches [-size 1k] and does not match [-size 0k]. *)
Theorem size_test_rounds_up (h : Host) (opts : Options) (c : EvalContext) :
  (forall spec sg n mul fi,
      size_bytes_from_spec h spec = Ret (sg, n, mul) ->
      exists g d vs suf blocks,
        chars spec = (chars g ++ d ++ chars suf)%list
        /\ size_spec_shape h g d vs suf
        /\ sg = (if g =? "" then "=" else g)
        /\ n = numeral_value vs
        /\ mul = unit_bytes suf
        /\ is_ceiling (st_size (lstat fi)) mul blocks
        /\ eval h (SizeNode sg n mul) fi c
           = (Ret (if startswith spec "+" then (blocks >? n)%Z
                   else if startswith spec "-" then (blocks <? n)%Z
                   else (blocks =? n)%Z), c, []))
  /\ (forall spec g d vs suf,
         chars spec = (chars g ++ d ++ chars suf)%list ->
         size_spec_shape h g d vs suf ->
         within_int_limit h (List.length d) ->
         size_bytes_from_spec h spec
         = Ret (if g =? "" then "=" else g, numeral_value vs, unit_bytes suf))
  /\ (exists nd, parse_expression h ["-size"; "1k"] opts = Some (Ret (nd, []))
                 /\ eval h nd one_byte_info c = (Ret true, c, []))
  /\ (exists nd, parse_expression h ["-size"; "0k"] opts = Some (Ret (nd, []))
                 /\ eval h nd one_byte_info c = (Ret false, c, [])).
Proof.
  split; [|split; [|split]].
  - intros spec sg n mul fi E.
    destruct (size_spec_returns h spec sg n mul E)
      as (g & d & vs & suf & C & Sh & W & -> & -> & ->).
    exists g, d, vs, suf, ((st_size (lstat fi) + unit_bytes suf - 1) / unit_bytes suf).
    split; [exact C|]. split; [exact Sh|]. do 3 (split; [reflexivity|]).
    split.
    + apply ceiling_division. apply unit_bytes_table, Sh.
    + cbn [eval]. unfold ret, eval_SizeNode, compare_n.
      rewrite (size_spec_sign h spec g d vs suf C Sh).
      destruct (startswith spec "+"); [reflexivity|].
      destruct (startswith spec "-"); reflexivity.
  - intros spec g d vs suf. apply size_spec_accepts.
  - eexists. split; reflexivity.
  - eexists. split; reflexivity.
Qed.

Lemma size_test_rounds_up_witness :
  size_bytes_from_spec sample_host "+10M" = Ret ("+", 10, 1048576)
  /\ exists blocks,
      is_ceiling (st_size (lstat one_byte_info)) 1048576 blocks
      /\ eval sample_host (SizeNode "+" 10 1048576) one_byte_info new_EvalContext
         = (Ret (blocks >? 10)%Z, new_EvalContext, []).
Proof.
  split.
  - apply (proj1 (proj2 (size_test_rounds_up sample_host default_Options
                           new_EvalContext))
             "+10M" "+" ["1"; "0"] [1%nat; 0%nat] "M").
    + reflexivity.
    + unfold size_spec_shape. cbn [In]. split; [auto|]. split; [discriminate|].
      split; [repeat constructor|auto 10].
    + left. cbn [List.length]. lia.
  - destruct (proj1 (size_test_rounds_up sample_host default_Options new_EvalContext)
                "+10M" "+" 10 1048576 one_byte_info eq_refl)
      as (g & d & vs & suf & blocks & _ & _ & _ & _ & _ & B & E).
    exists blocks. split; [exact B|exact E].
Defined.

(** On the sample host: a specification written with the Arabic-Indic digit
    three (U+0663), and one with digits of two scripts, a sign and a
    unit. *)
Example size_spec_unicode_digits :
  size_bytes_from_spec sample_host (String "217" (String "163" ""))
  = Ret ("=", 3, 512)
  /\ size_bytes_from_spec sample_host
       ("+" ++ String "217" (String "163" "") ++ "5k")
     = Ret ("+", 35, 1024)
  /\ size_bytes_from_spec sample_host "5c" = Ret ("=", 5, 1).
Proof. repeat split. Qed.

(** ** The empty test *)

(** C9, as stated, fails: an empty FIFO is neither a regular file nor a
    directory, and the empty test is true of it. *)
Lemma empty_test_counterexample : ~ empty_claim sample_host fifo_info.
Proof.
  unfold empty_claim. intros [H _].
  destruct (H eq_refl) as [[R _]|[D _]]; discriminate.
Qed.

(** C9, amended. The empty test never changes the context and has no effect;
    it returns true exactly for an entry that is not a directory and whose
    size is zero (whatever its type), or for a directory whose listing is
    empty; when listing the directory fails for lack of permission it
    returns false, it does not raise. *)
Theorem empty_test (h : Host) (fi : FileInfo) (c : EvalContext) :
  exists r,
    eval h EmptyNode fi c = (r, c, [])
    /\ (r = Ret true
        <-> (S_ISDIR (mode fi) = false /\ st_size (lstat fi) = 0)
            \/ (S_ISDIR (mode fi) = true /\ os_scandir h (path fi) = ScanOk []))
    /\ (S_ISDIR (mode fi) = true -> os_scandir h (path fi) = ScanPermissionError ->
        r = Ret false).
Proof.
  exists (eval_EmptyNode h fi). split; [|split].
  - simpl. unfold lift. destruct (eval_EmptyNode h fi); reflexivity.
  - unfold eval_EmptyNode.
    destruct (S_ISDIR (mode fi)) eqn:D.
    + destruct (os_scandir h (path fi)) as [[|x l]| |]; split; intros H;
        try discriminate; auto;
        destruct H as [[? _]|[_ ?]]; discriminate.
    + split.
      * intros H. injection H as H. apply Z.eqb_eq in H. auto.
      * intros [[_ H]|[? _]]; [|discriminate]. now rewrite H.
  - intros D P. unfold eval_EmptyNode. now rewrite D, P.
Qed.

Lemma empty_test_witness :
  exists r,
    eval sample_host EmptyNode fifo_info new_EvalContext = (r, new_EvalContext, [])
    /\ r = Ret true.
Proof.
  destruct (empty_test sample_host fifo_info new_EvalContext) as [r [E [I _]]].
  exists r. split; [exact E|].
  apply (proj2 I). left. split; reflexivity.
Defined.

(** ** Suppressed evaluation *)


(** ** The walk: unfolding *)

Scheme FsTree_mut := Induction for FsTree Sort Prop
  with Forest_mut := Induction for Forest Sort Prop.
Combined Scheme FsTree_Forest_ind from FsTree_mut, Forest_mut.

Lemma walk_Absent h expr opts sd p d ws :
  walk h expr opts sd Absent p d ws = (None, ws).
Proof. simpl. now destruct (quit (ctx ws)). Qed.

Lemma walk_Entry h expr opts sd lst tg dn ch p d ws :
  walk h expr opts sd (Entry lst tg dn ch) p d ws
  = walk_body h expr opts sd lst tg dn (walk_entries h expr opts sd ch p d) p d ws.
Proof.
  unfold walk_body, pre_order, decide_recurse, read_and_recurse, post_order.
  cbn [walk is_dir make_FileInfo].
  destruct (quit (ctx ws)); [reflexivity|].
  destruct (negb (depth_first opts) || negb (S_ISDIR (st_mode lst))).
  - destruct (evaluate _ _ _ _ _) as [[e|] ws1]; [reflexivity|].
    destruct (maxdepth opts); reflexivity.
  - destruct (maxdepth opts); reflexivity.
Qed.

Lemma walk_entries_NoMore h expr opts sd p d ws :
  walk_entries h expr opts sd NoMore p d ws = (None, ws).
Proof. reflexivity. Qed.

Lemma walk_entries_Child h expr opts sd nm t rest p d ws :
  walk_entries h expr opts sd (Child nm t rest) p d ws
  = if quit (ctx ws) then (None, ws)
    else match walk h expr opts sd t (os_path_join p nm) (d + 1) ws with
         | (Some e, ws') => (Some e, ws')
         | (None, ws') => walk_entries h expr opts sd rest p d ws'
         end.
Proof.
  cbn [walk_entries].
  destruct (quit (ctx ws)); [reflexivity|].
  destruct (follow opts =? "L"); [destruct (is_dir_following t); reflexivity|].
  destruct ((follow opts =? "H") && (d =? 0)%Z);
    [destruct (is_dir_following t); reflexivity|reflexivity].
Qed.

(** ** The walk: what every step preserves *)

Lemma quit_enter opts p d ws : quit (ctx (enter opts p d ws)) = quit (ctx ws).
Proof. reflexivity. Qed.

Lemma decide_recurse_spec opts sd lst d ph ws :
  let r := decide_recurse opts sd lst d ph ws in
  (snd r = ws \/ exists v, snd r = with_visited v ws)
  /\ (fst r = true ->
      below_maxdepth opts d /\ S_ISDIR (st_mode lst) = true /\ ph = false).
Proof.
  unfold decide_recurse, below_maxdepth.
  destruct (S_ISDIR (st_mode lst)); cbn [andb].
  2:{ destruct (maxdepth opts) as [m|]; [destruct (d >=? m)%Z|];
      rewrite ?andb_false_r; cbn; split; auto; discriminate. }
  set (dr := match maxdepth opts with
             | Some m => if (d >=? m)%Z then false else negb ph
             | None => negb ph
             end).
  assert (G : dr = true ->
              match maxdepth opts with Some m => d < m | None => True end
              /\ true = true /\ ph = false).
  { subst dr. intros H. destruct (maxdepth opts) as [m|].
    - destruct (d >=? m)%Z eqn:G; [discriminate|].
      destruct ph; [discriminate|]. repeat split; lia.
    - destruct ph; [discriminate|]. auto. }
  clearbody dr.
  destruct (mount opts && true && negb (st_dev lst =? sd)%Z);
    destruct (follow opts =? "L");
    try destruct (key_in _ _); cbn; split; eauto; try discriminate.
Qed.

Section Preservation.
Variables (h : Host) (expr : Node) (opts : Options).
Variable P : WalkState -> Prop.
Variable D : Z -> Prop.

Hypothesis D_child : forall d, D d -> below_maxdepth opts d -> D (d + 1).
Hypothesis P_enter :
  forall ws p d, D d -> quit (ctx ws) = false -> P ws -> P (enter opts p d ws).
Hypothesis P_evaluate :
  forall ws fi post, D (depth fi) -> quit (ctx ws) = false -> P ws ->
                     P (snd (evaluate h expr fi post ws)).
Hypothesis P_visited : forall ws v, P ws -> P (with_visited v ws).
Hypothesis P_stderr : forall ws s, P ws -> P (add_effects [StderrWrite s] ws).

Lemma walk_body_preserves sd lst tg dn descend p d ws :
  (below_maxdepth opts d -> forall ws0, P ws0 -> P (snd (descend ws0))) ->
  D d -> P ws ->
  P (snd (walk_body h expr opts sd lst tg dn descend p d ws)).
Proof.
  intros Hdesc Hd Hws. unfold walk_body.
  destruct (quit (ctx ws)) eqn:Q; [exact Hws|].
  pose proof (P_enter ws p d Hd Q Hws) as H1.
  set (fi := make_FileInfo opts lst tg p d).
  assert (Dfi : D (depth fi)) by exact Hd.
  assert (Hpre : forall exc ws2 ph,
             pre_order h expr opts fi (enter opts p d ws) = (exc, ws2, ph) -> P ws2).
  { unfold pre_order. intros exc ws2 ph.
    destruct (negb (depth_first opts) || negb (is_dir fi)).
    - pose proof (P_evaluate (enter opts p d ws) fi false Dfi Q H1) as H2.
      destruct (evaluate h expr fi false (enter opts p d ws)) as [e w].
      intros [= <- <- <-]. exact H2.
    - intros [= <- <- <-]. exact H1. }
  destruct (pre_order h expr opts fi (enter opts p d ws)) as [[exc ws2] ph] eqn:Epre.
  specialize (Hpre _ _ _ eq_refl).
  destruct exc as [e|]; [exact Hpre|].
  pose proof (decide_recurse_spec opts sd lst d ph ws2) as [Hst Hdr].
  destruct (decide_recurse opts sd lst d ph ws2) as [dr ws3]. cbn [fst snd] in *.
  assert (H3 : P ws3).
  { destruct Hst as [->|[v ->]]; auto. }
  assert (Hrec : P (snd (read_and_recurse opts dn descend p dr ws3))).
  { unfold read_and_recurse.
    destruct (dr && negb (quit (ctx ws3))) eqn:C; [|exact H3].
    apply andb_true_iff in C. destruct C as [-> _].
    destruct dn.
    - cbn [snd]. destruct (debug_on (debug opts) "search"); auto.
    - apply Hdesc; [apply Hdr; reflexivity|exact H3]. }
  destruct (read_and_recurse opts dn descend p dr ws3) as [exc ws4].
  cbn [snd] in Hrec.
  destruct exc as [e|]; [exact Hrec|].
  unfold post_order.
  destruct (depth_first opts && is_dir fi && negb (quit (ctx ws4))) eqn:C;
    [|exact Hrec].
  apply andb_true_iff in C. destruct C as [_ C]. apply negb_true_iff in C.
  apply P_evaluate; assumption.
Qed.

Lemma walk_preserves sd :
  (forall t p d ws, D d -> P ws -> P (snd (walk h expr opts sd t p d ws)))
  /\ (forall f p d ws, D (d + 1) -> P ws ->
                       P (snd (walk_entries h expr opts sd f p d ws))).
Proof.
  apply FsTree_Forest_ind.
  - intros p d ws _ Hws. now rewrite walk_Absent.
  - intros lst tg dn ch IH p d ws Hd Hws. rewrite walk_Entry.
    apply walk_body_preserves; auto.
  - intros p d ws _ Hws. exact Hws.
  - intros nm t IHt rest IHrest p d ws Hd Hws.
    rewrite walk_entries_Child.
    destruct (quit (ctx ws)); [exact Hws|].
    pose proof (IHt (os_path_join p nm) (d + 1) ws Hd Hws) as H1.
    destruct (walk h expr opts sd t (os_path_join p nm) (d + 1) ws) as [[e|] ws1];
      [exact H1|].
    apply IHrest; assumption.
Qed.

Lemma traverse_loop_preserves fs :
  D 0 ->
  forall paths ws, P ws -> P (snd (traverse_loop h fs expr opts paths ws)).
Proof.
  intros D0. induction paths as [|start paths IH]; intros ws Hws; [exact Hws|].
  cbn [traverse_loop].
  destruct (fs start) as [|lst tg dn ch] eqn:E; cbn [get_stats].
  - apply IH. now apply P_stderr.
  - pose proof (proj1 (walk_preserves (st_dev lst)) (Entry lst tg dn ch) start 0
                  (with_visited [] ws) D0 (P_visited _ _ Hws)) as H1.
    destruct (walk h expr opts (st_dev lst) (Entry lst tg dn ch) start 0
                (with_visited [] ws)) as [[e|] ws1]; [exact H1|].
    now apply IH.
Qed.
End Preservation.

(** ** The quit flag *)

Section Keeps.
Variable Q : EvalContext -> Prop.

Lemma keeps_ret {A} (a : A) : keeps Q (ret a).
Proof. intros c H. exact H. Qed.

Lemma keeps_raise {A} (e : exn) : keeps Q (@raise A e).
Proof. intros c H. exact H. Qed.

Lemma keeps_emit (e : Effect) : keeps Q (emit e).
Proof. intros c H. exact H. Qed.

Lemma keeps_get_ctx : keeps Q get_ctx.
Proof. intros c H. exact H. Qed.

Lemma keeps_modify (f : EvalContext -> EvalContext) :
  (forall c, Q c -> Q (f c)) -> keeps Q (modify f).
Proof. intros Hf c H. apply Hf, H. Qed.

Lemma keeps_bind {A B} (m : M A) (k : A -> M B) :
  keeps Q m -> (forall a, keeps Q (k a)) -> keeps Q (bind m k).
Proof.
  intros Hm Hk c H. unfold bind.
  pose proof (Hm c H) as H1.
  destruct (m c) as [[[a|e] c1] es1]; cbn [fst snd] in *; [|exact H1].
  pose proof (Hk a c1 H1) as H2.
  destruct (k a c1) as [[r c2] es2]. exact H2.
Qed.
End Keeps.

Ltac keeps_tac :=
  repeat first
    [ assumption
    | match goal with H : forall p b, keeps _ (get_output_file _ p b) |- _ => apply H end
    | apply keeps_ret | apply keeps_raise | apply keeps_emit | apply keeps_get_ctx
    | apply keeps_modify; solve [intros; auto]
    | apply keeps_bind; [|intros]
    | match goal with
      | |- keeps _ (if ?b then _ else _) => destruct b
      | |- keeps _ (match ?x with _ => _ end) => destruct x
      | |- keeps _ (let (_, _) := ?x in _) => destruct x
      end ].

Lemma eval_keeps (Q : EvalContext -> Prop) (h : Host) (fi : FileInfo) :
  (forall c, Q c -> Q (set_prune_flag true c)) ->
  (forall c, Q c -> Q (set_quit true c)) ->
  (forall c fs, Q c -> Q (set_open_files fs c)) ->
  forall nd, keeps Q (eval h nd fi).
Proof.
  intros Hp Hq Hf.
  assert (Hout : forall p b, keeps Q (get_output_file h p b)).
  { intros p b. unfold get_output_file. keeps_tac. }
  assert (Hwrite : forall p b1 b2 s, keeps Q (file_write p b1 b2 s)).
  { intros. unfold file_write. keeps_tac. }
  induction nd; cbn [eval]; try apply keeps_ret.
  - keeps_tac; auto.
  - keeps_tac; auto.
  - keeps_tac; auto.
  - keeps_tac; auto.
  - unfold lift. keeps_tac.
  - unfold eval_PrintNode, print. keeps_tac.
  - unfold eval_FPrintNode. keeps_tac; auto.
  - unfold eval_PrintfNode. keeps_tac; auto.
  - unfold eval_PruneNode. keeps_tac.
  - unfold eval_QuitNode. keeps_tac.
  - unfold eval_DeleteNode, eprint. keeps_tac.
  - unfold eval_LSNode, print. keeps_tac; auto.
  - unfold eval_ExecNode, run, eprint. keeps_tac.
Qed.

Lemma eval_keeps_quit h fi nd c :
  quit c = true -> quit (snd (fst (eval h nd fi c))) = true.
Proof.
  apply (eval_keeps (fun c => quit c = true)); auto.
Qed.

Lemma walk_after_quit h expr opts sd t p d ws :
  quit (ctx ws) = true -> walk h expr opts sd t p d ws = (None, ws).
Proof. intros Q. destruct t; cbn [walk]; now rewrite Q. Qed.

Lemma walk_entries_after_quit h expr opts sd f p d ws :
  quit (ctx ws) = true -> walk_entries h expr opts sd f p d ws = (None, ws).
Proof. intros Q. destruct f; cbn [walk_entries]; [reflexivity|now rewrite Q]. Qed.

Lemma traverse_loop_after_quit h fs expr opts paths :
  forall ws, quit (ctx ws) = true ->
  exists es,
    traverse_loop h fs expr opts paths ws
    = (None, with_visited (visited_dirs (snd (traverse_loop h fs expr opts paths ws)))
               (add_effects es ws))
    /\ forallb is_stderr es = true.
Proof.
  induction paths as [|start paths IH]; intros ws Q.
  - exists []. split; [|reflexivity]. cbn. unfold add_effects, with_visited. cbn.
    rewrite app_nil_r. now destruct ws.
  - cbn [traverse_loop]. destruct (fs start) as [|lst tg dn ch]; cbn [get_stats].
    + set (e := StderrWrite _).
      destruct (IH (add_effects [e] ws) Q) as (es & E & S).
      exists (e :: es). split; [|exact S].
      rewrite E at 1. f_equal. unfold with_visited, add_effects. cbn.
      now rewrite <- app_assoc.
    + rewrite walk_after_quit by exact Q.
      destruct (IH (with_visited [] ws) Q) as (es & E & S).
      exists es. split; [|exact S].
      rewrite E at 1. reflexivity.
Qed.

Lemma quit_free_app l1 l2 : quit_free l1 -> quit_free l2 -> quit_free (l1 ++ l2).
Proof. intros. apply Forall_app. auto. Qed.

Lemma sealed_enter opts ws p d :
  quit (ctx ws) = false -> sealed ws -> sealed (enter opts p d ws).
Proof.
  intros Q [_ S2]. specialize (S2 Q). unfold sealed, enter, record. cbn.
  rewrite removelast_last. split; [exact S2|].
  intros _. apply quit_free_app; [exact S2|]. repeat constructor.
Qed.

Lemma sealed_evaluate h expr ws fi post :
  quit (ctx ws) = false -> sealed ws -> sealed (snd (evaluate h expr fi post ws)).
Proof.
  intros Q [_ S2]. specialize (S2 Q). unfold sealed, evaluate.
  destruct (eval h expr fi (set_prune_flag false (ctx ws))) as [[r c1] es]. cbn.
  rewrite removelast_last. split; [exact S2|].
  intros Q1. apply quit_free_app; [exact S2|]. repeat constructor. exact Q1.
Qed.

Lemma sealed_traverse h fs paths expr opts :
  sealed (snd (traverse h fs paths expr opts)).
Proof.
  assert (S : sealed (snd (traverse_loop h fs expr opts paths initial_WalkState))).
  { apply (traverse_loop_preserves h expr opts sealed (fun _ => True)); auto.
    - intros. now apply sealed_enter.
    - intros. now apply sealed_evaluate.
    - split; [constructor|]. intros _. constructor. }
  unfold traverse.
  destruct (traverse_loop h fs expr opts paths initial_WalkState) as [[e|] ws]; exact S.
Qed.

Lemma sealed_last ws before ev after :
  sealed ws -> history ws = (before ++ Evaluate ev :: after)%list ->
  ev_quit ev = true -> after = [].
Proof.
  intros [S1 _] E Q. destruct after as [|x after]; [reflexivity|exfalso].
  rewrite E in S1.
  replace (before ++ Evaluate ev :: x :: after)%list
    with ((before ++ [Evaluate ev]) ++ x :: after)%list in S1
    by now rewrite <- app_assoc.
  rewrite removelast_app in S1 by discriminate.
  apply Forall_app in S1. destruct S1 as [S1 _].
  apply Forall_app in S1. destruct S1 as [_ S1].
  inversion S1 as [|? ? H _]. congruence.
Qed.

Lemma accounted_traverse h fs paths expr opts :
  accounted (snd (traverse h fs paths expr opts)).
Proof.
  assert (S : accounted (snd (traverse_loop h fs expr opts paths initial_WalkState))).
  { apply (traverse_loop_preserves h expr opts accounted (fun _ => True)); auto.
    - intros ws p d _ _ A. unfold accounted, enter, record, effects_of in *. cbn.
      rewrite flat_map_app. cbn. now rewrite app_nil_r.
    - intros ws fi post _ _ A. unfold accounted, evaluate, effects_of in *.
      destruct (eval h expr fi (set_prune_flag false (ctx ws))) as [[r c1] es]. cbn.
      rewrite flat_map_app, !filter_app. cbn. rewrite app_nil_r. now f_equal.
    - intros ws s A. unfold accounted, add_effects in *. cbn.
      rewrite filter_app. cbn. now rewrite app_nil_r.
    - reflexivity. }
  unfold traverse.
  destruct (traverse_loop h fs expr opts paths initial_WalkState) as [[e|] ws];
    unfold accounted, close in *; cbn in *; rewrite filter_app, S;
    match goal with
    | |- (_ ++ filter is_output (map ?f ?l))%list = _ =>
        assert (Z0 : filter is_output (map f l) = []) by (induction l; auto)
    end; rewrite Z0; now rewrite app_nil_r.
Qed.

(** C2. The quit flag is monotonic: an evaluation that starts with it set
    ends with it set.  Once it is set, [walk] returns at once for any entry
    (no evaluation, no effect, no recursion), the loop over the remaining
    siblings stops, and the loop over the remaining roots evaluates nothing
    and changes nothing but the error stream (the message for a root that
    does not exist).  In the history of a whole run nothing follows the
    evaluation that set the flag, and everything the run printed, wrote,
    deleted or executed was done by an evaluation of that history: no entry
    after the quit point is visited, evaluated or output. *)
Theorem quit_halts_traversal (h : Host) (expr : Node) (opts : Options) :
  (forall nd fi c, quit c = true -> quit (snd (fst (eval h nd fi c))) = true)
  /\ (forall sd t p d ws,
         quit (ctx ws) = true -> walk h expr opts sd t p d ws = (None, ws))
  /\ (forall sd f p d ws,
         quit (ctx ws) = true -> walk_entries h expr opts sd f p d ws = (None, ws))
  /\ (forall fs paths ws,
         quit (ctx ws) = true ->
         let r := traverse_loop h fs expr opts paths ws in
         fst r = None /\ ctx (snd r) = ctx ws /\ history (snd r) = history ws
         /\ total_matches (snd r) = total_matches ws
         /\ exists es, effects (snd r) = (effects ws ++ es)%list
                       /\ forallb is_stderr es = true)
  /\ (forall fs paths before ev after,
         history (snd (traverse h fs paths expr opts))
         = (before ++ Evaluate ev :: after)%list ->
         ev_quit ev = true -> after = [])
  /\ (forall fs paths,
         let ws := snd (traverse h fs paths expr opts) in
         filter is_output (effects ws) = filter is_output (effects_of (history ws))).
Proof.
  split; [|split; [|split; [|split; [|split]]]].
  - intros. now apply eval_keeps_quit.
  - intros. now apply walk_after_quit.
  - intros. now apply walk_entries_after_quit.
  - intros fs paths ws Q.
    destruct (traverse_loop_after_quit h fs expr opts paths ws Q) as (es & E & S).
    cbn zeta. rewrite E. cbn. repeat split; eauto.
  - intros fs paths before ev after E Q.
    eapply sealed_last; eauto. apply sealed_traverse.
  - intros. apply accounted_traverse.
Qed.

Lemma quit_halts_traversal_witness :
  let quit_set := with_ctx (set_quit true new_EvalContext) initial_WalkState in
  walk sample_host (PrintNode false) default_Options 1 sample_tree "/tmp/t" 0 quit_set
  = (None, quit_set)
  /\ walk_entries sample_host (PrintNode false) default_Options 1
       (Child "a.txt" (regular_file 5 3) NoMore) "/tmp/t" 0 quit_set
     = (None, quit_set).
Proof.
  split.
  - apply (proj1 (proj2 (quit_halts_traversal sample_host (PrintNode false)
                           default_Options))).
    reflexivity.
  - apply (proj1 (proj2 (proj2 (quit_halts_traversal sample_host (PrintNode false)
                                  default_Options)))).
    reflexivity.
Defined.

(** ** The prune flag *)

Lemma same_but_prune_fields a b :
  same_but_prune a b ->
  set_prune_flag false (ctx a) = set_prune_flag false (ctx b)
  /\ total_matches a = total_matches b /\ visited_dirs a = visited_dirs b
  /\ effects a = effects b /\ history a = history b.
Proof.
  unfold same_but_prune. intros H. repeat split.
  - exact (f_equal ctx H).
  - exact (f_equal total_matches H).
  - exact (f_equal visited_dirs H).
  - exact (f_equal effects H).
  - exact (f_equal history H).
Qed.

Lemma same_but_prune_refl a : same_but_prune a a.
Proof. reflexivity. Qed.

Lemma same_but_prune_quit a b :
  same_but_prune a b -> quit (ctx a) = quit (ctx b).
Proof.
  intros H. apply same_but_prune_fields in H. destruct H as [H _].
  apply (f_equal quit) in H. exact H.
Qed.

Lemma same_but_prune_enter opts p d a b :
  same_but_prune a b -> same_but_prune (enter opts p d a) (enter opts p d b).
Proof.
  intros H. apply same_but_prune_fields in H.
  destruct H as (Hc & Hm & Hv & He & Hh).
  unfold same_but_prune, enter, record, with_ctx.
  cbn [ctx total_matches visited_dirs effects history].
  rewrite Hm, Hv, He, Hh. f_equal.
  change (set_suppress (suppress_for opts d) (set_prune_flag false (ctx a))
          = set_suppress (suppress_for opts d) (set_prune_flag false (ctx b))).
  now rewrite Hc.
Qed.

Lemma evaluate_same_but_prune h expr fi post a b :
  same_but_prune a b -> evaluate h expr fi post a = evaluate h expr fi post b.
Proof.
  intros H. apply same_but_prune_fields in H.
  destruct H as (Hc & Hm & Hv & He & Hh).
  unfold evaluate. now rewrite Hc, Hm, Hv, He, Hh.
Qed.

Lemma same_but_prune_with_visited v a b :
  same_but_prune a b -> same_but_prune (with_visited v a) (with_visited v b).
Proof.
  intros H. apply same_but_prune_fields in H.
  destruct H as (Hc & Hm & Hv & He & Hh).
  unfold same_but_prune, with_visited, with_ctx.
  cbn [ctx total_matches visited_dirs effects history]. now rewrite Hc, Hm, He, Hh.
Qed.

Lemma same_but_prune_add_effects es a b :
  same_but_prune a b -> same_but_prune (add_effects es a) (add_effects es b).
Proof.
  intros H. apply same_but_prune_fields in H.
  destruct H as (Hc & Hm & Hv & He & Hh).
  unfold same_but_prune, add_effects, with_ctx.
  cbn [ctx total_matches visited_dirs effects history]. now rewrite Hc, Hm, Hv, He, Hh.
Qed.

Lemma decide_recurse_same_but_prune opts sd lst d ph a b :
  same_but_prune a b ->
  fst (decide_recurse opts sd lst d ph a) = fst (decide_recurse opts sd lst d ph b)
  /\ same_but_prune (snd (decide_recurse opts sd lst d ph a))
       (snd (decide_recurse opts sd lst d ph b)).
Proof.
  intros H. pose proof (same_but_prune_fields _ _ H) as (Hc & Hm & Hv & He & Hh).
  unfold decide_recurse. rewrite Hv.
  destruct (S_ISDIR (st_mode lst) && (follow opts =? "L")); [|auto].
  destruct (key_in _ _); cbn [fst snd]; split; auto.
  now apply same_but_prune_with_visited.
Qed.

Lemma walk_body_same_but_prune h expr opts sd lst tg dn descend p d a b :
  (forall a0 b0, same_but_prune a0 b0 -> agree (descend a0) (descend b0)) ->
  same_but_prune a b ->
  agree (walk_body h expr opts sd lst tg dn descend p d a)
        (walk_body h expr opts sd lst tg dn descend p d b).
Proof.
  intros Hdesc H. unfold walk_body.
  rewrite <- (same_but_prune_quit _ _ H).
  destruct (quit (ctx a)); [split; [reflexivity|exact H]|].
  pose proof (same_but_prune_enter opts p d _ _ H) as H1.
  set (fi := make_FileInfo opts lst tg p d).
  assert (Hpre : fst (pre_order h expr opts fi (enter opts p d a))
                 = fst (pre_order h expr opts fi (enter opts p d b))
                 \/ exists e1 e2 w1 w2,
                     pre_order h expr opts fi (enter opts p d a) = (e1, w1, false)
                     /\ pre_order h expr opts fi (enter opts p d b) = (e2, w2, false)
                     /\ e1 = None /\ e2 = None /\ same_but_prune w1 w2).
  { unfold pre_order. destruct (negb (depth_first opts) || negb (is_dir fi)).
    - left. now rewrite (evaluate_same_but_prune h expr fi false _ _ H1).
    - right. do 4 eexists. repeat split; eauto. }
  assert (Hrest : forall ph w1 w2,
             same_but_prune w1 w2 ->
             agree
               (let '(do_recurse, ws) := decide_recurse opts sd lst d ph w1 in
                let '(exc, ws) := read_and_recurse opts dn descend p do_recurse ws in
                match exc with
                | Some e => (Some e, ws)
                | None => post_order h expr opts fi ws
                end)
               (let '(do_recurse, ws) := decide_recurse opts sd lst d ph w2 in
                let '(exc, ws) := read_and_recurse opts dn descend p do_recurse ws in
                match exc with
                | Some e => (Some e, ws)
                | None => post_order h expr opts fi ws
                end)).
  { intros ph w1 w2 Hw.
    destruct (decide_recurse_same_but_prune opts sd lst d ph _ _ Hw) as [Edr Hw3].
    destruct (decide_recurse opts sd lst d ph w1) as [dr w3].
    destruct (decide_recurse opts sd lst d ph w2) as [dr' w3'].
    cbn [fst snd] in *. subst dr'.
    assert (Hrr : agree (read_and_recurse opts dn descend p dr w3)
                        (read_and_recurse opts dn descend p dr w3')).
    { unfold read_and_recurse. rewrite <- (same_but_prune_quit _ _ Hw3).
      destruct (dr && negb (quit (ctx w3))); [|split; [reflexivity|exact Hw3]].
      destruct dn; [|now apply Hdesc].
      split; [reflexivity|]. cbn [snd].
      destruct (debug_on (debug opts) "search"); [|exact Hw3].
      now apply same_but_prune_add_effects. }
    destruct Hrr as [Ee Hw4].
    destruct (read_and_recurse opts dn descend p dr w3) as [exc w4].
    destruct (read_and_recurse opts dn descend p dr w3') as [exc' w4'].
    cbn [fst snd] in *. subst exc'.
    destruct exc as [e|]; [split; [reflexivity|exact Hw4]|].
    unfold post_order. rewrite <- (same_but_prune_quit _ _ Hw4).
    destruct (depth_first opts && is_dir fi && negb (quit (ctx w4)));
      [|split; [reflexivity|exact Hw4]].
    rewrite (evaluate_same_but_prune h expr fi true _ _ Hw4).
    split; [reflexivity|apply same_but_prune_refl]. }
  destruct Hpre as [Hpre|(e1 & e2 & w1 & w2 & E1 & E2 & -> & -> & Hw)].
  - unfold pre_order in *.
    destruct (negb (depth_first opts) || negb (is_dir fi)).
    + rewrite (evaluate_same_but_prune h expr fi false _ _ H1).
      destruct (evaluate h expr fi false (enter opts p d b)) as [[e|] w].
      * split; [reflexivity|apply same_but_prune_refl].
      * apply Hrest, same_but_prune_refl.
    + now apply Hrest.
  - rewrite E1, E2. now apply Hrest.
Qed.

Lemma walk_same_but_prune h expr opts sd :
  (forall t p d a b, same_but_prune a b ->
                     agree (walk h expr opts sd t p d a) (walk h expr opts sd t p d b))
  /\ (forall f p d a b, same_but_prune a b ->
                        agree (walk_entries h expr opts sd f p d a)
                              (walk_entries h expr opts sd f p d b)).
Proof.
  apply FsTree_Forest_ind.
  - intros p d a b H. rewrite !walk_Absent. split; [reflexivity|exact H].
  - intros lst tg dn ch IH p d a b H. rewrite !walk_Entry.
    apply walk_body_same_but_prune; auto.
  - intros p d a b H. split; [reflexivity|exact H].
  - intros nm t IHt rest IHrest p d a b H.
    rewrite !walk_entries_Child. rewrite <- (same_but_prune_quit _ _ H).
    destruct (quit (ctx a)); [split; [reflexivity|exact H]|].
    destruct (IHt (os_path_join p nm) (d + 1) a b H) as [E1 H1].
    destruct (walk h expr opts sd t (os_path_join p nm) (d + 1) a) as [e1 w1].
    destruct (walk h expr opts sd t (os_path_join p nm) (d + 1) b) as [e2 w2].
    cbn [fst snd] in *. subst e2.
    destruct e1; [split; [reflexivity|exact H1]|].
    now apply IHrest.
Qed.

Lemma walk_pruned h expr opts sd lst tg dn ch p d ws :
  quit (ctx ws) = false -> depth_first opts = false ->
  S_ISDIR (st_mode lst) = true ->
  let r := evaluate h expr (make_FileInfo opts lst tg p d) false (enter opts p d ws) in
  prune_flag (ctx (snd r)) = true ->
  let w := walk h expr opts sd (Entry lst tg dn ch) p d ws in
  fst w = fst r
  /\ (snd w = snd r \/ exists v, snd w = with_visited v (snd r)).
Proof.
  intros Q DF ID r PR w. subst w. rewrite walk_Entry. unfold walk_body.
  rewrite Q. unfold pre_order. rewrite DF.
  change (is_dir (make_FileInfo opts lst tg p d)) with (S_ISDIR (st_mode lst)).
  rewrite ID. cbn [negb orb]. fold r.
  destruct r as [exc ws2]. cbn [fst snd] in *. rewrite PR. cbn [andb].
  destruct exc as [e|]; [auto|].
  pose proof (decide_recurse_spec opts sd lst d true ws2) as [Hst Hdr].
  destruct (decide_recurse opts sd lst d true ws2) as [dr ws3]. cbn [fst snd] in *.
  destruct dr; [destruct (Hdr eq_refl) as (_ & _ & X); discriminate|].
  unfold read_and_recurse, post_order. rewrite DF. cbn. auto.
Qed.

(** C3. A directory evaluated in pre-order whose evaluation leaves the prune
    flag set is not descended into: the walk of that directory consists of
    its own visit and evaluation, whatever its children are.  Every
    evaluation starts from a reset flag, and the walk of an entry proceeds
    in the same way whether or not the flag was set when it began (same
    outcome, same evaluations, effects, matches and context, the final flag
    apart): pruning one directory has no influence on its siblings. *)
Theorem prune_skips_descent_only (h : Host) (expr : Node) (opts : Options) (sd : Z) :
  (forall lst tg dn ch p d ws,
      quit (ctx ws) = false -> depth_first opts = false ->
      S_ISDIR (st_mode lst) = true ->
      let r := evaluate h expr (make_FileInfo opts lst tg p d) false
                 (enter opts p d ws) in
      prune_flag (ctx (snd r)) = true ->
      let w := walk h expr opts sd (Entry lst tg dn ch) p d ws in
      fst w = fst r
      /\ ctx (snd w) = ctx (snd r)
      /\ effects (snd w) = effects (snd r)
      /\ total_matches (snd w) = total_matches (snd r)
      /\ exists ev,
           history (snd w)
           = (history ws ++ [Visit p d (suppress_for opts d); Evaluate ev])%list
           /\ ev_path ev = p /\ ev_pruned ev = true)
  /\ (forall fi post ws b,
         evaluate h expr fi post (with_ctx (set_prune_flag b (ctx ws)) ws)
         = evaluate h expr fi post ws)
  /\ (forall t p d ws b,
         let w1 := walk h expr opts sd t p d (with_ctx (set_prune_flag b (ctx ws)) ws) in
         let w2 := walk h expr opts sd t p d ws in
         fst w1 = fst w2 /\ same_but_prune (snd w1) (snd w2)).
Proof.
  split; [|split].
  - intros lst tg dn ch p d ws Q DF ID r PR w.
    destruct (walk_pruned h expr opts sd lst tg dn ch p d ws Q DF ID PR) as [E1 E2].
    fold r in E1, E2. fold w in E1, E2.
    assert (Hh : exists ev,
               history (snd r)
               = (history ws ++ [Visit p d (suppress_for opts d); Evaluate ev])%list
               /\ ev_path ev = p /\ ev_pruned ev = prune_flag (ctx (snd r))).
    { subst r. unfold evaluate.
      destruct (eval h expr _ _) as [[rr c1] es]. cbn.
      eexists. rewrite <- app_assoc. cbn. repeat split. }
    destruct Hh as (ev & Hh & Hp & Hpr). rewrite PR in Hpr.
    destruct E2 as [E2|[v E2]]; rewrite E2; repeat split; eauto.
  - intros fi post ws b. apply evaluate_same_but_prune.
    unfold same_but_prune. destruct ws as [c m v e hh]. destruct c. reflexivity.
  - intros t p d ws b.
    apply (proj1 (walk_same_but_prune h expr opts sd)).
    unfold same_but_prune. destruct ws as [c m v e hh]. destruct c. reflexivity.
Qed.

Lemma prune_skips_descent_only_witness :
  let w := walk sample_host PruneNode default_Options 1 sample_tree "/tmp/t" 0
             initial_WalkState in
  fst w = None
  /\ evaluated_paths (snd w) = ["/tmp/t"]
  /\ effects (snd w) = [].
Proof.
  destruct (proj1 (prune_skips_descent_only sample_host PruneNode default_Options 1)
              (sample_stat 16877 4096 2) (Some (sample_stat 16877 4096 2)) false
              (Child "a.txt" (regular_file 5 3)
                 (Child "sub" (directory 4 (Child "b.log" (regular_file 0 5) NoMore))
                    NoMore))
              "/tmp/t" 0 initial_WalkState eq_refl eq_refl eq_refl eq_refl)
    as (E1 & _ & E3 & _ & ev & E5 & E6 & _).
  split; [exact E1|]. split; [|exact E3].
  unfold evaluated_paths.
  change (walk sample_host PruneNode default_Options 1 sample_tree "/tmp/t" 0
            initial_WalkState)
    with (walk sample_host PruneNode default_Options 1
            (Entry (sample_stat 16877 4096 2) (Some (sample_stat 16877 4096 2)) false
               (Child "a.txt" (regular_file 5 3)
                  (Child "sub" (directory 4 (Child "b.log" (regular_file 0 5) NoMore))
                     NoMore))) "/tmp/t" 0 initial_WalkState).
  rewrite E5. cbn. now rewrite E6.
Defined.

(** ** Symbolic links *)

Lemma walk_body_not_dir h expr opts sd lst tg dn descend descend' p d ws :
  S_ISDIR (st_mode lst) = false ->
  walk_body h expr opts sd lst tg dn descend p d ws
  = walk_body h expr opts sd lst tg dn descend' p d ws.
Proof.
  intros ND. unfold walk_body.
  destruct (quit (ctx ws)); [reflexivity|].
  destruct (pre_order _ _ _ _ _) as [[[e|] ws2] ph]; [reflexivity|].
  pose proof (decide_recurse_spec opts sd lst d ph ws2) as [_ Hdr].
  destruct (decide_recurse opts sd lst d ph ws2) as [[|] ws3]; cbn [fst] in Hdr.
  - destruct (Hdr eq_refl) as (_ & X & _). congruence.
  - reflexivity.
Qed.

Lemma symlink_is_not_dir (m : Z) : S_ISLNK m = true -> S_ISDIR m = false.
Proof.
  unfold S_ISLNK, S_ISDIR. intros H. apply Z.eqb_eq in H. now rewrite H.
Qed.

(** A symbolic link is never listed, whatever the follow mode, the depth
    and what [os.stat] finds behind it. *)
Lemma walk_symlink h expr opts sd lst tg dn ch ch' p d ws :
  S_ISLNK (st_mode lst) = true ->
  walk h expr opts sd (Entry lst tg dn ch) p d ws
  = walk h expr opts sd (Entry lst tg dn ch') p d ws.
Proof.
  intros L. rewrite !walk_Entry. apply walk_body_not_dir.
  now apply symlink_is_not_dir.
Qed.

(** C7: the code at the failing input.  Under [-H], with [-print], a root
    that is a symbolic link to a directory holding [inside.txt]: the link
    itself is the only entry evaluated and printed; the directory behind it
    is not listed. *)
Theorem H_root_symlink_is_not_followed (h : Host) :
  let r := traverse h sample_fs ["link"] (PrintNode false) options_H in
  is_dir_following (sample_fs "link") = true
  /\ fst r = Ret 1
  /\ evaluated_paths (snd r) = ["link"]
  /\ stdout_of (effects (snd r)) = ["link" ++ NL].
Proof. repeat split. Qed.

(** ** Depth bounds *)

Lemma parse_global_loop_depths (h : Host) (n : nat) :
  forall argv opts paths tokens opts' paths' tokens' es,
    (List.length argv <= n)%nat ->
    depths_checked opts ->
    parse_global_loop h argv opts paths tokens = (Ret (opts', paths', tokens'), es) ->
    depths_checked opts'.
Proof.
  induction n as [|n IH]; intros argv opts paths tokens opts' paths' tokens' es Hn Hc.
  - destruct argv; [|cbn in Hn; lia]. cbn. intros [= <- _ _ _]. exact Hc.
  - destruct argv as [|a rest]; [cbn; intros [= <- _ _ _]; exact Hc|].
    cbn [List.length] in Hn. cbn [parse_global_loop].
    assert (Hrest : forall o p t, depths_checked o ->
               parse_global_loop h rest o p t = (Ret (opts', paths', tokens'), es) ->
               depths_checked opts').
    { intros o p t Ho. apply IH; [lia|exact Ho]. }
    assert (Hrest2 : forall v rest' o p t, rest = v :: rest' -> depths_checked o ->
               parse_global_loop h rest' o p t = (Ret (opts', paths', tokens'), es) ->
               depths_checked opts').
    { intros v rest' o p t -> Ho. apply IH; [cbn in Hn; lia|exact Ho]. }
    destruct Hc as [Hmax Hmin].
    destruct (a =? "--").
    { destruct (parse_global_rest rest paths tokens). intros [= <- _ _ _]. now split. }
    destruct (str_in a ["--help"; "--version"]); [apply Hrest; now split|].
    destruct (str_in a OPTION_TOKENS).
    2:{ destruct (str_in a EXPR_TOKENS || startswith a "-");
        [intros [= <- _ _ _]; now split|apply Hrest; now split]. }
    destruct (a =? "-H"); [apply Hrest; now split|].
    destruct (a =? "-L"); [apply Hrest; now split|].
    destruct (a =? "-P"); [apply Hrest; now split|].
    destruct (a =? "-follow"); [apply Hrest; now split|].
    destruct (a =? "-depth"); [apply Hrest; now split|].
    destruct (a =? "-maxdepth").
    { destruct rest as [|v rest']; [discriminate|].
      destruct (py_int h v) as [z|]; [|discriminate].
      destruct (z <? 0)%Z eqn:Z0; [discriminate|].
      apply (Hrest2 v rest'); [reflexivity|]. split; [cbn; lia|exact Hmin]. }
    destruct (a =? "-mindepth").
    { destruct rest as [|v rest']; [discriminate|].
      destruct (py_int h v) as [z|]; [|discriminate].
      destruct (z <? 0)%Z eqn:Z0; [discriminate|].
      apply (Hrest2 v rest'); [reflexivity|]. split; [exact Hmax|cbn; lia]. }
    destruct (str_in a ["-mount"; "-xdev"]); [apply Hrest; now split|].
    destruct (a =? "-daystart"); [apply Hrest; now split|].
    destruct (a =? "-files0-from").
    { destruct rest as [|v rest']; [discriminate|].
      apply (Hrest2 v rest'); [reflexivity|]. now split. }
    destruct (a =? "-D").
    { destruct rest as [|v rest']; [discriminate|].
      destruct (v =? "help"); [discriminate|].
      apply (Hrest2 v rest'); [reflexivity|]. now split. }
    apply Hrest. now split.
Qed.

Lemma parse_global_depths h argv opts paths tokens es :
  parse_global h argv = (Ret (opts, paths, tokens), es) -> depths_checked opts.
Proof.
  apply (parse_global_loop_depths h (List.length argv)); [lia|].
  split; cbn; [exact I|lia].
Qed.

Lemma suppress_within_maxdepth opts m d :
  maxdepth opts = Some m -> d <= m ->
  (d >? m)%Z = false /\ suppress_for opts d = (d <? mindepth opts)%Z.
Proof.
  intros E Hd. unfold suppress_for. rewrite E.
  assert (G : (d >? m)%Z = false) by (rewrite Z.gtb_ltb; apply Z.ltb_ge; lia).
  now rewrite G.
Qed.

Lemma traverse_within_maxdepth h fs paths expr opts m :
  maxdepth opts = Some m -> 0 <= m ->
  Forall (within_maxdepth opts m) (history (snd (traverse h fs paths expr opts))).
Proof.
  intros E Hm.
  set (P := fun ws => Forall (within_maxdepth opts m) (history ws)).
  assert (S : P (snd (traverse_loop h fs expr opts paths initial_WalkState))).
  { apply (traverse_loop_preserves h expr opts P (fun d => d <= m)).
    - intros d Hd B. unfold below_maxdepth in B. rewrite E in B. lia.
    - intros ws p d Hd _ Hws. unfold P, enter, record. cbn.
      apply Forall_app. split; [exact Hws|]. constructor; [|constructor].
      cbn. destruct (suppress_within_maxdepth opts m d E Hd). auto.
    - intros ws fi post Hd _ Hws. unfold P, evaluate.
      destruct (eval h expr fi _) as [[r c1] es]. cbn.
      apply Forall_app. split; [exact Hws|]. constructor; [|constructor].
      exact Hd.
    - intros ws v Hws. exact Hws.
    - intros ws s Hws. exact Hws.
    - exact Hm.
    - constructor. }
  unfold traverse.
  destruct (traverse_loop h fs expr opts paths initial_WalkState) as [[e|] ws]; exact S.
Qed.

(** C10. For the options [parse_global] accepts, when [-maxdepth m] is set
    every entry the traversal visits, and every entry it evaluates, has
    depth at most [m]; so the test [depth > maxdepth] of the suppression
    computed for a visited entry is false, and that suppression is
    [depth < mindepth]. *)
Theorem visited_depth_within_maxdepth (h : Host) (argv : list string)
    (opts : Options) (cli_paths tokens : list string) (es : list Effect) (m : Z) :
  parse_global h argv = (Ret (opts, cli_paths, tokens), es) ->
  maxdepth opts = Some m ->
  forall fs paths expr e,
    In e (history (snd (traverse h fs paths expr opts))) ->
    match e with
    | Visit _ d s => d <= m /\ (d >? m)%Z = false /\ s = (d <? mindepth opts)%Z
    | Evaluate ev => ev_depth ev <= m
    end.
Proof.
  intros PG E fs paths expr e Hin.
  pose proof (parse_global_depths _ _ _ _ _ _ PG) as [Hmax _]. rewrite E in Hmax.
  pose proof (traverse_within_maxdepth h fs paths expr opts m E Hmax) as F.
  rewrite Forall_forall in F. exact (F e Hin).
Qed.

Lemma visited_depth_within_maxdepth_witness :
  match Visit "/tmp/t/a.txt" 1 false with
  | Visit _ d s => d <= 1 /\ (d >? 1)%Z = false /\ s = (d <? 1)%Z
  | Evaluate ev => ev_depth ev <= 1
  end.
Proof.
  apply (visited_depth_within_maxdepth sample_host
           ["/tmp/t"; "-maxdepth"; "1"; "-mindepth"; "1"; "-print"]
           (set_mindepth 1 (set_maxdepth (Some 1) default_Options))
           ["/tmp/t"] ["-print"] [] 1 eq_refl eq_refl
           sample_fs ["/tmp/t"] (PrintNode false)).
  vm_compute. right. right. left. reflexivity.
Defined.

(** ** Suppression over a whole run *)



(** C4: the code at the failing input.  [walk] stores the suppression it
    computes for an entry on the context when it enters the entry; under
    [-depth] a directory is evaluated after its children, each of which has
    stored its own.  With [-depth -mindepth 1 -print] on [/tmp/t] the root
    has depth 0, the suppression computed for it is true, and it is
    evaluated with the flag unset and printed.  Without [-depth] the same
    root is evaluated with the flag set and prints nothing. *)
Theorem depth_first_directory_escapes_suppression :
  (exists ws ev,
      main sample_host sample_fs ["/tmp/t"; "-depth"; "-mindepth"; "1"; "-print"]
      = Some (Ret 0, ws)
      /\ In (Visit "/tmp/t" 0 true) (history ws)
      /\ last (history ws) (Visit "" 0 false) = Evaluate ev
      /\ ev_path ev = "/tmp/t" /\ ev_depth ev = 0 /\ ev_post_order ev = true
      /\ ev_suppressed ev = false
      /\ ev_effects ev = [StdoutWrite ("/tmp/t" ++ NL)]
      /\ stdout_of (effects ws)
         = ["/tmp/t/a.txt" ++ NL; "/tmp/t/sub/b.log" ++ NL; "/tmp/t/sub" ++ NL;
            "/tmp/t" ++ NL])
  /\ (exists ws,
         main sample_host sample_fs ["/tmp/t"; "-mindepth"; "1"; "-print"]
         = Some (Ret 0, ws)
         /\ stdout_of (effects ws)
            = ["/tmp/t/a.txt" ++ NL; "/tmp/t/sub" ++ NL; "/tmp/t/sub/b.log" ++ NL]).
Proof.
  split.
  - match goal with
    | |- context [main ?a ?b ?c] => remember (main a b c) as r eqn:E
    end.
    vm_compute in E. subst r.
    do 2 eexists. split; [reflexivity|]. split; [cbn; auto|]. repeat split.
  - match goal with
    | |- context [main ?a ?b ?c] => remember (main a b c) as r eqn:E
    end.
    vm_compute in E. subst r.
    eexists. split; reflexivity.
Qed.

(** ** The parser always answers *)

Lemma shorter_trans ts1 ts2 r :
  (List.length ts1 <= List.length ts2)%nat -> shorter ts1 r -> shorter ts2 r.
Proof. destruct r as [[nd ts']|e]; cbn; [lia|auto]. Qed.

Lemma exec_args_shorter tok ts :
  match exec_args tok ts with
  | Ret (_, _, rest) => (List.length rest < List.length ts)%nat
  | Raise _ => True
  end.
Proof.
  induction ts as [|a ts IH]; cbn; [exact I|].
  destruct (a =? ";"); [cbn; lia|].
  destruct (a =? "+"); [cbn; lia|].
  destruct (exec_args tok ts) as [[[args plus] rest]|e]; [lia|exact I].
Qed.

Lemma with_arg_next_or msg ts mk : shorter ts (with_arg (next_or msg ts) mk).
Proof.
  destruct ts as [|a ts]; cbn; [exact I|].
  destruct (mk a); cbn; [lia|exact I].
Qed.

Lemma with_arg_next_nonempty_or msg ts mk :
  shorter ts (with_arg (next_nonempty_or msg ts) mk).
Proof.
  destruct ts as [|a ts]; cbn; [exact I|].
  destruct (a =? ""); cbn; [exact I|].
  destruct (mk a); cbn; [lia|exact I].
Qed.

Lemma shorter_refl nd ts : shorter ts (Ret (nd, ts)).
Proof. cbn. lia. Qed.

Lemma parse_test_or_action_shorter h options tok ts :
  shorter ts (parse_test_or_action h options tok ts).
Proof.
  unfold parse_test_or_action.
  repeat match goal with
         | |- shorter _ (if ?b then _ else _) => destruct b
         end;
    try apply shorter_refl; try apply with_arg_next_or;
    try apply with_arg_next_nonempty_or; try exact I.
  - destruct ts as [|out ts1]; cbn [next_or]; [exact I|].
    eapply shorter_trans; [|apply with_arg_next_or]. cbn. lia.
  - pose proof (exec_args_shorter tok ts) as H.
    destruct (exec_args tok ts) as [[[args plus] rest]|e]; cbn; [lia|exact I].
Qed.

Section ParserAnswers.
Variable primary : Tokens -> option (result (Node * Tokens)).
Variable k : nat.
Hypothesis primary_ok :
  forall ts, (List.length ts < k)%nat -> parses_strictly ts (primary ts).

Lemma parse_and_loop_parses fuel :
  forall node ts, (List.length ts < fuel)%nat -> (List.length ts < k)%nat ->
                  parses ts (parse_and_loop primary fuel node ts).
Proof.
  induction fuel as [|fuel IH]; intros node ts Hf Hk; [lia|].
  cbn [parse_and_loop].
  destruct ts as [|t ts1]; cbn [peek hd_error].
  { eexists. split; [reflexivity|apply shorter_refl]. }
  destruct (str_in t [")"; "-o"; "-or"; ","]).
  { eexists. split; [reflexivity|apply shorter_refl]. }
  cbn [List.length] in *.
  destruct (str_in t ["-a"; "-and"]); cbn [tl].
  - destruct (primary_ok ts1 ltac:(lia)) as (r & E & S & _). rewrite E.
    destruct r as [[rhs ts2]|e].
    + cbn in S. destruct (IH (AndNode node rhs) ts2 ltac:(lia) ltac:(lia))
        as (r' & E' & S').
      exists r'. split; [exact E'|]. eapply shorter_trans; [|exact S']. cbn. lia.
    + eexists. split; [reflexivity|exact I].
  - destruct (primary_ok (t :: ts1) ltac:(cbn; lia)) as (r & E & S & St). rewrite E.
    destruct r as [[rhs ts2]|e].
    + specialize (St ltac:(discriminate)). cbn in St.
      destruct (IH (AndNode node rhs) ts2 ltac:(lia) ltac:(lia)) as (r' & E' & S').
      exists r'. split; [exact E'|]. eapply shorter_trans; [|exact S']. cbn. lia.
    + eexists. split; [reflexivity|exact I].
Qed.

Lemma parse_and_parses fuel ts :
  (List.length ts < fuel)%nat -> (List.length ts < k)%nat ->
  parses ts (parse_and primary fuel ts).
Proof.
  intros Hf Hk. unfold parse_and.
  destruct (primary_ok ts Hk) as (r & E & S & _). rewrite E.
  destruct r as [[node ts1]|e].
  - cbn in S.
    destruct (parse_and_loop_parses fuel node ts1 ltac:(lia) ltac:(lia))
      as (r' & E' & S').
    exists r'. split; [exact E'|]. eapply shorter_trans; eauto.
  - eexists. split; [reflexivity|exact I].
Qed.

Lemma parse_comma_loop_parses fuel :
  forall node ts, (List.length ts < fuel)%nat -> (List.length ts < k)%nat ->
                  parses ts (parse_comma_loop primary fuel node ts).
Proof.
  induction fuel as [|fuel IH]; intros node ts Hf Hk; [lia|].
  cbn [parse_comma_loop].
  destruct ts as [|t ts1].
  { eexists. split; [reflexivity|apply shorter_refl]. }
  destruct (t =? ",").
  2:{ eexists. split; [reflexivity|apply shorter_refl]. }
  cbn [List.length] in *.
  destruct (parse_and_parses fuel ts1 ltac:(lia) ltac:(lia)) as (r & E & S).
  rewrite E. destruct r as [[rhs ts2]|e].
  - cbn in S. destruct (IH (CommaNode node rhs) ts2 ltac:(lia) ltac:(lia))
      as (r' & E' & S').
    exists r'. split; [exact E'|]. eapply shorter_trans; [|exact S']. cbn. lia.
  - eexists. split; [reflexivity|exact I].
Qed.

Lemma parse_comma_parses fuel ts :
  (List.length ts < fuel)%nat -> (List.length ts < k)%nat ->
  parses ts (parse_comma primary fuel ts).
Proof.
  intros Hf Hk. unfold parse_comma.
  destruct (parse_and_parses fuel ts Hf Hk) as (r & E & S). rewrite E.
  destruct r as [[node ts1]|e].
  - cbn in S.
    destruct (parse_comma_loop_parses fuel node ts1 ltac:(lia) ltac:(lia))
      as (r' & E' & S').
    exists r'. split; [exact E'|]. eapply shorter_trans; eauto.
  - eexists. split; [reflexivity|exact I].
Qed.

Lemma parse_or_loop_parses fuel :
  forall node ts, (List.length ts < fuel)%nat -> (List.length ts < k)%nat ->
                  parses ts (parse_or_loop primary fuel node ts).
Proof.
  induction fuel as [|fuel IH]; intros node ts Hf Hk; [lia|].
  cbn [parse_or_loop].
  destruct ts as [|t ts1].
  { eexists. split; [reflexivity|apply shorter_refl]. }
  destruct (str_in t ["-o"; "-or"]).
  2:{ eexists. split; [reflexivity|apply shorter_refl]. }
  cbn [List.length] in *.
  destruct (parse_comma_parses fuel ts1 ltac:(lia) ltac:(lia)) as (r & E & S).
  rewrite E. destruct r as [[rhs ts2]|e].
  - cbn in S. destruct (IH (OrNode node rhs) ts2 ltac:(lia) ltac:(lia))
      as (r' & E' & S').
    exists r'. split; [exact E'|]. eapply shorter_trans; [|exact S']. cbn. lia.
  - eexists. split; [reflexivity|exact I].
Qed.

Lemma parse_or_parses fuel ts :
  (List.length ts < fuel)%nat -> (List.length ts < k)%nat ->
  parses ts (parse_or primary fuel ts).
Proof.
  intros Hf Hk. unfold parse_or.
  destruct (parse_comma_parses fuel ts Hf Hk) as (r & E & S). rewrite E.
  destruct r as [[node ts1]|e].
  - cbn in S.
    destruct (parse_or_loop_parses fuel node ts1 ltac:(lia) ltac:(lia))
      as (r' & E' & S').
    exists r'. split; [exact E'|]. eapply shorter_trans; eauto.
  - eexists. split; [reflexivity|exact I].
Qed.
End ParserAnswers.

Lemma parse_primary_parses h options fuel :
  forall ts, (List.length ts < fuel)%nat ->
             parses_strictly ts (parse_primary h options fuel ts).
Proof.
  induction fuel as [|fuel IH]; intros ts Hf; [lia|].
  cbn [parse_primary].
  destruct ts as [|t ts1].
  { eexists. split; [reflexivity|]. split; [apply shorter_refl|]. intros X. now elim X. }
  cbn [List.length] in Hf.
  destruct (t =? "(").
  - destruct (parse_or_parses (parse_primary h options fuel) fuel IH fuel ts1
                ltac:(lia) ltac:(lia)) as (r & E & S).
    rewrite E. destruct r as [[node ts2]|e].
    + cbn in S. destruct ts2 as [|t2 ts3].
      * eexists. split; [reflexivity|]. split; exact I.
      * destruct (t2 =? ")").
        -- eexists. split; [reflexivity|]. cbn in *. split; [lia|]. intros _. lia.
        -- eexists. split; [reflexivity|]. split; exact I.
    + eexists. split; [reflexivity|]. split; exact I.
  - destruct (str_in t ["!"; "-not"]).
    + destruct (IH ts1 ltac:(lia)) as (r & E & S & _). rewrite E.
      destruct r as [[child ts2]|e].
      * eexists. split; [reflexivity|]. cbn in *. split; [lia|]. intros _. lia.
      * eexists. split; [reflexivity|]. split; exact I.
    + eexists. split; [reflexivity|].
      pose proof (parse_test_or_action_shorter h options t ts1) as S.
      destruct (parse_test_or_action h options t ts1) as [[nd ts2]|e]; cbn in *.
      * split; [lia|]. intros _. lia.
      * split; exact I.
Qed.

(** [parse_expression] never runs out of fuel: it returns a node, or
    raises. *)
Lemma parse_expression_answers h ts options :
  exists r, parse_expression h ts options = Some r.
Proof.
  unfold parse_expression.
  destruct (parse_or_parses
              (parse_primary h options (S (S (List.length ts)))) (S (S (List.length ts)))
              (parse_primary_parses h options (S (S (List.length ts))))
              (S (S (List.length ts))) ts ltac:(lia) ltac:(lia)) as (r & E & _).
  eauto.
Qed.

(** So does [main]. *)
Lemma main_answers h fs argv : exists r, main h fs argv = Some r.
Proof.
  unfold main. destruct argv as [|a argv].
  - destruct (traverse _ _ _ _ _) as [[z|e] ws]; eauto.
  - destruct (parse_global h (a :: argv)) as [[[[opts paths] rest]|e] es]; [|eauto].
    destruct (list_string_eqb rest ["--help"]); [eauto|].
    destruct (list_string_eqb rest ["--version"]); [eauto|].
    destruct rest as [|t rest].
    + destruct (iter_start_paths h opts paths); [|eauto].
      destruct (traverse _ _ _ _ _) as [[z|[]] ws]; eauto.
    + destruct (parse_expression_answers h (t :: rest) opts) as (r & E). rewrite E.
      destruct r as [[expr left]|e].
      * destruct (iter_start_paths h opts paths); [|eauto].
        destruct (traverse _ _ _ _ _) as [[z|[]] ws]; eauto.
      * destruct e; eauto.
Qed.

(** ** Grouping of [-o] and [,] *)

(** C1: the code at the failing input.  [-true -o -false , -false] is parsed
    with [-o] at the root and the comma inside its right operand; the
    grouping the specification gives, the comma at the root, is a different
    tree, and the two evaluate differently on every file. *)
Theorem or_binds_weaker_than_comma (h : Host) (options : Options) (fi : FileInfo)
    (c : EvalContext) :
  parse_expression h ["-true"; "-o"; "-false"; ","; "-false"] options
  = Some (Ret (OrNode (BoolNode true) (CommaNode (BoolNode false) (BoolNode false)),
               []))
  /\ eval h (OrNode (BoolNode true) (CommaNode (BoolNode false) (BoolNode false))) fi c
     = (Ret true, c, [])
  /\ eval h (spec_grouping (BoolNode true) (BoolNode false) (BoolNode false)) fi c
     = (Ret false, c, []).
Proof. repeat split. Qed.

(** ** Malformed expressions *)

(** C8: the code at the failing input.  After a complete expression an
    unmatched [)] ends the parse without an error, it and whatever follows
    it being left unread; [main] goes on to traverse and returns 0, with
    nothing on the error stream.  An unmatched [(], by contrast, is
    reported and makes [main] return 1 before any traversal. *)
Theorem unmatched_closing_parenthesis_is_accepted (h : Host) :
  parse_expression h ["-true"; ")"; "-bogus"] default_Options
  = Some (Ret (BoolNode true, [")"; "-bogus"]))
  /\ (exists ws,
         main h sample_fs ["/tmp/t"; "-true"; ")"; "-bogus"] = Some (Ret 0, ws)
         /\ evaluated_paths ws
            = ["/tmp/t"; "/tmp/t/a.txt"; "/tmp/t/sub"; "/tmp/t/sub/b.log"]
         /\ filter is_stderr (effects ws) = [])
  /\ main h sample_fs ["/tmp/t"; "("; "-true"]
     = Some (Ret 1, only_effects [StderrWrite ("find: missing )" ++ NL)]).
Proof.
  split; [reflexivity|]. split; [|reflexivity].
  eexists. repeat split.
Qed.

(** * Further properties of the code *)

(** ** Expression nodes *)










(** ** Numeric tests *)










(** ** The size specification *)



(** ** The walk: what the two evaluation sites preserve *)

Section PreservationBySite.
Variables (h : Host) (expr : Node) (opts : Options).
Variable P : WalkState -> Prop.

Hypothesis P_enter :
  forall ws p d, quit (ctx ws) = false -> P ws -> P (enter opts p d ws).
Hypothesis P_pre :
  forall ws p d lst tg,
    quit (ctx ws) = false -> P ws ->
    P (snd (evaluate h expr (make_FileInfo opts lst tg p d) false (enter opts p d ws))).
Hypothesis P_post :
  forall ws fi,
    depth_first opts = true -> quit (ctx ws) = false -> P ws ->
    P (snd (evaluate h expr fi true ws)).
Hypothesis P_visited : forall ws v, P ws -> P (with_visited v ws).
Hypothesis P_stderr : forall ws s, P ws -> P (add_effects [StderrWrite s] ws).



End PreservationBySite.

(** ** The match count *)




(** ** Suppression without [-depth] *)




(** ** When the walk does not descend *)









(** ** Output files *)

















(** ** A start path that does not exist *)











(** ** What the parser leaves unread *)

Section ParserStops.
Variable primary : Tokens -> option (result (Node * Tokens)).






End ParserStops.


(** ** The arguments of [-exec] *)






(** ** The command line *)











(** ** Names of entries *)










(** ** Tests that cannot match *)



(** ** Running commands *)



(** ** [-printf] *)



(** ** Time tests *)




